(** * Tetris game engine (script.js): shallow embedding and verified properties

    The engine keeps its state in module-level variables ([grid],
    [fallingPieceObj], [score], [gameInterval], [isGameRunning]) and is
    driven by an interval timer and by key presses.  It is embedded here as
    functions in a small state-and-exception monad over a record of those
    variables.  A JavaScript [TypeError] is an exception that leaves the
    variables as they were when it was raised.

    The three copies of the engine in the repository (desktop, responsive and
    plain variants) have the same game functions; they differ only in which
    DOM nodes they draw on.  Drawing ([renderGame], [renderPiece]) and the
    score label ([updateScore]) write to the canvas and the DOM only, never
    to a game variable, and are left out of the state.

    The theme toggle is embedded on its own small record.  The swipe
    handler of the responsive variant calls the same four piece operations
    as the key handler, under the same running test; the canvas switch of
    that variant ends in [restartGame].  The section navigation for small
    screens computes with scroll offsets and is left out. *)

From Stdlib Require Import ZArith Lia Bool String.
From stdpp Require Import base option list.

Local Open Scope Z_scope.

(** ** Values stored in arrays

    Board rows and shape matrices are arrays of numbers.  Reading an array
    past its end gives [undefined], and [rotate] may store what it read, so a
    cell is a number or [undefined]. *)

Inductive cell : Type :=
  | Num (n : Z)
  | Undefined.

Coercion Num : Z >-> cell.

Global Instance cell_eq_dec : EqDecision cell.
Proof. solve_decision. Defined.

Abbreviation matrix := (list (list cell)).

(** [c == n] for a number literal [n]. *)
Definition looseEq (c : cell) (n : Z) : bool :=
  match c with
  | Num m => m =? n
  | Undefined => false
  end.

(** [c > n] for a number literal [n]; [undefined > n] is false. *)
Definition greater (c : cell) (n : Z) : bool :=
  match c with
  | Num m => n <? m
  | Undefined => false
  end.

(** [row[j]] for an index inside or past the end of [row]. *)
Definition readCell (row : list cell) (j : nat) : cell :=
  default Undefined (row !! j).

(** ** Constants *)

Definition SHAPES : list matrix :=
  [ [ [Num 0; Num 1; Num 0; Num 0];
      [Num 0; Num 1; Num 0; Num 0];
      [Num 0; Num 1; Num 0; Num 0];
      [Num 0; Num 1; Num 0; Num 0] ];
    [ [Num 0; Num 1; Num 0];
      [Num 0; Num 1; Num 0];
      [Num 1; Num 1; Num 0] ];
    [ [Num 0; Num 1; Num 0];
      [Num 0; Num 1; Num 0];
      [Num 0; Num 1; Num 1] ];
    [ [Num 1; Num 1; Num 0];
      [Num 0; Num 1; Num 1];
      [Num 0; Num 0; Num 0] ];
    [ [Num 0; Num 1; Num 1];
      [Num 1; Num 1; Num 0];
      [Num 0; Num 0; Num 0] ];
    [ [Num 1; Num 1; Num 1];
      [Num 0; Num 1; Num 0];
      [Num 0; Num 0; Num 0] ];
    [ [Num 1; Num 1];
      [Num 1; Num 1] ] ].

Definition ROWS : Z := 20.
Definition COLS : Z := 10.

(** ** The game variables *)

Record FallingPiece : Type := mkPiece {
  piece : matrix;
  colorIndex : Z;
  x : Z;
  y : Z
}.

(** [timers] is the set of interval timers the browser currently runs,
    [nextTimer] the handle the next [setInterval] returns, and
    [pendingGameOver] the number of game-over prompts scheduled with
    [setTimeout] and not yet shown. *)
Record State : Type := mkState {
  grid : matrix;
  fallingPieceObj : option FallingPiece;
  score : Z;
  gameInterval : option nat;
  isGameRunning : bool;
  timers : list nat;
  nextTimer : nat;
  pendingGameOver : nat
}.

Definition setGrid (g : matrix) (s : State) : State :=
  mkState g (fallingPieceObj s) (score s) (gameInterval s) (isGameRunning s)
          (timers s) (nextTimer s) (pendingGameOver s).

Definition setFallingPieceObj (o : option FallingPiece) (s : State) : State :=
  mkState (grid s) o (score s) (gameInterval s) (isGameRunning s)
          (timers s) (nextTimer s) (pendingGameOver s).

Definition setScore (n : Z) (s : State) : State :=
  mkState (grid s) (fallingPieceObj s) n (gameInterval s) (isGameRunning s)
          (timers s) (nextTimer s) (pendingGameOver s).

Definition setIsGameRunning (b : bool) (s : State) : State :=
  mkState (grid s) (fallingPieceObj s) (score s) (gameInterval s) b
          (timers s) (nextTimer s) (pendingGameOver s).

Definition withX (f : FallingPiece) (n : Z) : FallingPiece :=
  mkPiece (piece f) (colorIndex f) n (y f).

Definition withY (f : FallingPiece) (n : Z) : FallingPiece :=
  mkPiece (piece f) (colorIndex f) (x f) n.

Definition withPiece (f : FallingPiece) (m : matrix) : FallingPiece :=
  mkPiece m (colorIndex f) (x f) (y f).

(** ** State and exception monad

    A computation returns [Some a] when it completes and [None] when it
    throws; in both cases it hands back the variables as it left them. *)

Definition M (A : Type) : Type := State -> option A * State.

Definition ret {A} (a : A) : M A := fun s => (Some a, s).

Definition throw {A} : M A := fun s => (None, s).

Definition bind {A B} (m : M A) (k : A -> M B) : M B :=
  fun s =>
    match m s with
    | (Some a, s') => k a s'
    | (None, s') => (None, s')
    end.

Definition get : M State := fun s => (Some s, s).

Definition modify (u : State -> State) : M unit := fun s => (Some tt, u s).

Declare Scope js_scope.
Delimit Scope js_scope with js.
Notation "'let*' a := m 'in' k" := (bind m (fun a => k))
  (at level 10, a name, m at level 100, k at level 200) : js_scope.
Notation "m ';;;' k" := (bind m (fun _ => k))
  (at level 100, k at level 200, right associativity) : js_scope.

Local Open Scope js_scope.

(** Browser timers. *)

Definition setInterval : M nat :=
  fun s =>
    (Some (nextTimer s),
     mkState (grid s) (fallingPieceObj s) (score s) (gameInterval s)
             (isGameRunning s) (nextTimer s :: timers s) (S (nextTimer s))
             (pendingGameOver s)).

Definition clearInterval (h : option nat) : M unit :=
  modify (fun s =>
    mkState (grid s) (fallingPieceObj s) (score s) (gameInterval s)
            (isGameRunning s)
            (match h with
             | Some id => filter (fun t => t <> id) (timers s)
             | None => timers s
             end)
            (nextTimer s) (pendingGameOver s)).

Definition setGameInterval (h : nat) : M unit :=
  modify (fun s =>
    mkState (grid s) (fallingPieceObj s) (score s) (Some h) (isGameRunning s)
            (timers s) (nextTimer s) (pendingGameOver s)).

(** [setTimeout] of the game-over prompt. *)
Definition setTimeout : M unit :=
  modify (fun s =>
    mkState (grid s) (fallingPieceObj s) (score s) (gameInterval s)
            (isGameRunning s) (timers s) (nextTimer s)
            (S (pendingGameOver s))).

(** ** generateGrid *)

Definition generateGrid : matrix :=
  replicate (Z.to_nat ROWS) (replicate (Z.to_nat COLS) (Num 0)).

(** ** collision

    The two nested loops return [true] from inside; [Some false] means the
    loop ran to its end, [Some true] that it returned [true], [None] that
    [grid[q]] was [undefined] and reading [grid[q][p]] threw. *)

Fixpoint collision_cols (g : matrix) (cx cy : Z) (i : nat)
    (row : list cell) (j : nat) : option bool :=
  match row with
  | [] => Some false
  | c :: row' =>
      if looseEq c 1 then
        let p := cx + Z.of_nat j in
        let q := cy + Z.of_nat i in
        if (0 <=? p) && (p <? COLS) && (0 <=? q) && (q <? ROWS) then
          match g !! Z.to_nat q with
          | None => None
          | Some r =>
              if greater (readCell r (Z.to_nat p)) 0 then Some true
              else collision_cols g cx cy i row' (S j)
          end
        else Some true
      else collision_cols g cx cy i row' (S j)
  end.

Fixpoint collision_rows (g : matrix) (cx cy : Z) (m : matrix) (i : nat)
    : option bool :=
  match m with
  | [] => Some false
  | row :: m' =>
      match collision_cols g cx cy i row 0 with
      | Some false => collision_rows g cx cy m' (S i)
      | r => r
      end
  end.

Definition collisionAt (g : matrix) (m : matrix) (cx cy : Z) : option bool :=
  collision_rows g cx cy m 0.

(** [rotatedPiece || fallingPieceObj.piece]: an array is always truthy;
    without a second argument the piece of the (possibly absent) falling
    piece is read. *)
Definition collision (cx cy : Z) (rotatedPiece : option matrix) : M bool :=
  fun s =>
    match rotatedPiece with
    | Some m => (collisionAt (grid s) m cx cy, s)
    | None =>
        match fallingPieceObj s with
        | Some f => (collisionAt (grid s) (piece f) cx cy, s)
        | None => (None, s)
        end
    end.

(** ** Writing a board cell

    [grid[q][p] = v].  When [grid[q]] is [undefined] the assignment throws.
    An index [p] past the end of the row makes the row longer, the skipped
    places reading [undefined]; a negative [p] sets a property that is no
    element of the row, and which the program never reads. *)

Definition writeRow (row : list cell) (p : nat) (v : cell) : list cell :=
  if (p <? length row)%nat then <[p := v]> row
  else row ++ replicate (p - length row)%nat Undefined ++ [v].

Definition writeCell (g : matrix) (q p : Z) (v : cell) : option matrix :=
  if q <? 0 then None
  else
    match g !! Z.to_nat q with
    | None => None
    | Some row =>
        if p <? 0 then Some g
        else Some (<[Z.to_nat q := writeRow row (Z.to_nat p) v]> g)
    end.

Definition assignGrid (q p : Z) (v : cell) : M unit :=
  fun s =>
    match writeCell (grid s) q p v with
    | Some g => (Some tt, setGrid g s)
    | None => (None, s)
    end.

(** ** moveDown

    The two loops that lock the piece write the board cell by cell, so a
    write that throws leaves the earlier writes in place.  [moveDown] reads
    [fallingPieceObj.x] first of all, which throws when there is no
    falling piece. *)

Fixpoint lock_cols (f : FallingPiece) (i : nat) (row : list cell) (j : nat)
    : M unit :=
  match row with
  | [] => ret tt
  | c :: row' =>
      (if looseEq c 1 then
         assignGrid (y f + Z.of_nat i) (x f + Z.of_nat j) (Num (colorIndex f))
       else ret tt) ;;;
      lock_cols f i row' (S j)
  end.

Fixpoint lock_rows (f : FallingPiece) (m : matrix) (i : nat) : M unit :=
  match m with
  | [] => ret tt
  | row :: m' => lock_cols f i row 0 ;;; lock_rows f m' (S i)
  end.

Definition moveDown : M unit :=
  let* s := get in
  match fallingPieceObj s with
  | None => throw
  | Some f =>
      let* hit := collision (x f) (y f + 1) None in
      if negb hit then
        modify (setFallingPieceObj (Some (withY f (y f + 1))))
      else
        lock_rows f (piece f) 0 ;;;
        (if y f =? 0 then
           clearInterval (gameInterval s) ;;;
           modify (setIsGameRunning false) ;;;
           setTimeout
         else ret tt) ;;;
        modify (setFallingPieceObj None)
  end.

(** ** moveLeft, moveRight *)

Definition moveLeft : M unit :=
  let* s := get in
  match fallingPieceObj s with
  | None => ret tt
  | Some f =>
      let* hit := collision (x f - 1) (y f) None in
      if negb hit then modify (setFallingPieceObj (Some (withX f (x f - 1))))
      else ret tt
  end.

Definition moveRight : M unit :=
  let* s := get in
  match fallingPieceObj s with
  | None => ret tt
  | Some f =>
      let* hit := collision (x f + 1) (y f) None in
      if negb hit then modify (setFallingPieceObj (Some (withX f (x f + 1))))
      else ret tt
  end.

(** ** rotate

    [rotatedPiece] starts as a zero matrix of the shape of [piece]; then
    [rotatedPiece[i][j] = piece[j][i]] for every place [(i, j)] of [piece],
    which throws when [piece[j]] is [undefined] and stores [undefined] when
    row [j] has no place [i]; then every row is reversed.  Nothing but the
    local [rotatedPiece] is written before the collision test. *)

Definition transposedCell (m : matrix) (i j : nat) : option cell :=
  match m !! j with
  | None => None
  | Some r => Some (readCell r i)
  end.

Definition transposedRow (m : matrix) (i : nat) (row : list cell)
    : option (list cell) :=
  mapM (transposedCell m i) (seq 0 (length row)).

Definition transposed (m : matrix) : option matrix :=
  mapM (fun ir => transposedRow m (fst ir) (snd ir)) (imap pair m).

Definition rotateMatrix (m : matrix) : option matrix :=
  match transposed m with
  | None => None
  | Some t => Some (reverse <$> t)
  end.

Definition rotate : M unit :=
  let* s := get in
  match fallingPieceObj s with
  | None => ret tt
  | Some f =>
      match rotateMatrix (piece f) with
      | None => throw
      | Some rotatedPiece =>
          let* hit := collision (x f) (y f) (Some rotatedPiece) in
          if negb hit then
            modify (setFallingPieceObj (Some (withPiece f rotatedPiece)))
          else ret tt
      end
  end.

(** ** checkGrid

    The scan reads [grid.length] and [grid[0].length] afresh on every turn
    of the loop, on the grid as the earlier turns left it.  [fuel] bounds
    the number of turns; [None] means the bound was reached with the loop
    condition still true. *)

Definition emptyRow : list cell :=
  [Num 0; Num 0; Num 0; Num 0; Num 0; Num 0; Num 0; Num 0; Num 0; Num 0].

Definition allFilled (g : matrix) (row : list cell) : bool :=
  forallb (fun j => negb (looseEq (readCell row j) 0))
          (seq 0 (length (default [] (g !! 0%nat)))).

Fixpoint scan (fuel : nat) (i : nat) (g : matrix) (count : nat)
    : option (matrix * nat) :=
  match g !! i with
  | None => Some (g, count)
  | Some row =>
      match fuel with
      | O => None
      | S fuel' =>
          if allFilled g row then
            scan fuel' (S i) (emptyRow :: delete i g) (S count)
          else scan fuel' (S i) g count
      end
  end.

Definition lineScore (count : nat) (sc : Z) : Z :=
  if (count =? 1)%nat then sc + 10
  else if (count =? 2)%nat then sc + 30
  else if (count =? 3)%nat then sc + 50
  else if (3 <? count)%nat then sc + 100
  else sc.

Definition checkGrid : M unit :=
  fun s =>
    match scan (length (grid s)) 0 (grid s) 0 with
    | Some (g, count) =>
        (Some tt, setScore (lineScore count (score s)) (setGrid g s))
    | None => (None, s)
    end.

(** ** randomPieceObject

    [ran] is the value of [Math.floor(Math.random() * 7)], one of 0..6.
    For any other index [SHAPES[ran]] would be [undefined] and the drawing
    of the new piece would throw; the result is [None] there. *)

Definition randomPieceObject (ran : nat) : option FallingPiece :=
  match SHAPES !! ran with
  | Some m => Some (mkPiece m (Z.of_nat ran + 1) 4 0)
  | None => None
  end.

(** ** The tick, start and restart *)

Definition newGameState (ran : nat) : M unit :=
  checkGrid ;;;
  (let* s := get in
   match fallingPieceObj s with
   | Some _ => ret tt
   | None =>
       match randomPieceObject ran with
       | Some f => modify (setFallingPieceObj (Some f))
       | None => throw
       end
   end) ;;;
  moveDown.

Definition startGame : M unit :=
  let* s := get in
  if negb (isGameRunning s) then
    modify (setIsGameRunning true) ;;;
    (let* h := setInterval in setGameInterval h)
  else ret tt.

Definition restartGame : M unit :=
  (let* s := get in clearInterval (gameInterval s)) ;;;
  modify (setGrid generateGrid) ;;;
  modify (setFallingPieceObj None) ;;;
  modify (setScore 0) ;;;
  modify (setIsGameRunning false) ;;;
  startGame.

(** ** Events

    The script, once loaded, has run [startGame].  Afterwards the browser
    delivers timer ticks (only while the interval timer is active), key
    presses and clicks on the restart button. *)

Inductive key : Type := ArrowDown | ArrowLeft | ArrowRight | ArrowUp | OtherKey.

Definition keydown (k : key) : M unit :=
  let* s := get in
  if negb (isGameRunning s) then ret tt
  else
    match k with
    | ArrowDown => moveDown
    | ArrowLeft => moveLeft
    | ArrowRight => moveRight
    | ArrowUp => rotate
    | OtherKey => ret tt
    end.

Definition loaded : State :=
  snd (startGame (mkState generateGrid None 0 None false [] 1 0)).

(** The callback of the game-over [setTimeout]: the player accepts or
    declines to play again. *)
Definition gameOverPrompt (accept : bool) : M unit :=
  modify (fun s =>
    mkState (grid s) (fallingPieceObj s) (score s) (gameInterval s)
            (isGameRunning s) (timers s) (nextTimer s)
            (Nat.pred (pendingGameOver s))) ;;;
  if accept then restartGame else ret tt.

(** The states the game can be in.  A tick fires only while an interval
    timer is active, the prompt only once it was scheduled. *)
Inductive reachable : State -> Prop :=
  | reach_loaded : reachable loaded
  | reach_tick s ran :
      reachable s -> timers s <> [] -> (ran < 7)%nat ->
      reachable (snd (newGameState ran s))
  | reach_key s k : reachable s -> reachable (snd (keydown k s))
  | reach_restart s : reachable s -> reachable (snd (restartGame s))
  | reach_prompt s accept :
      reachable s -> (0 < pendingGameOver s)%nat ->
      reachable (snd (gameOverPrompt accept s)).

(** * Specifications *)

(** ** Well-formed boards and pieces *)

Definition fillCode (c : cell) : Prop :=
  match c with
  | Num n => 0 <= n <= 7
  | Undefined => False
  end.

Definition board_wf (g : matrix) : Prop :=
  length g = Z.to_nat ROWS /\
  Forall (fun row => length row = Z.to_nat COLS /\ Forall fillCode row) g.

Global Instance fillCode_dec c : Decision (fillCode c).
Proof. destruct c; simpl; apply _. Defined.

Global Instance board_wf_dec g : Decision (board_wf g).
Proof. unfold board_wf. apply _. Defined.

(** Place [(i, j)] of the matrix holds the value 1. *)
Definition filledAt (m : matrix) (i j : nat) : Prop :=
  exists row, m !! i = Some row /\ row !! j = Some (Num 1).

Definition inside (p q : Z) : Prop := 0 <= p < COLS /\ 0 <= q < ROWS.

(** Column [p] of row [q] is on the board and holds a nonzero value. *)
Definition occupied (g : matrix) (p q : Z) : Prop :=
  inside p q /\
  exists row c, g !! Z.to_nat q = Some row /\ row !! Z.to_nat p = Some c /\
                c <> Num 0.

Definition blocked (g : matrix) (p q : Z) : Prop :=
  ~ inside p q \/ occupied g p q.

(** The test [collision] makes for one filled cell. *)
Definition cellTest (g : matrix) (p q : Z) : option bool :=
  if (0 <=? p) && (p <? COLS) && (0 <=? q) && (q <? ROWS) then
    match g !! Z.to_nat q with
    | None => None
    | Some r => Some (greater (readCell r (Z.to_nat p)) 0)
    end
  else Some true.

(** The matrix [collision] tests: its third argument, or else the matrix of
    the falling piece. *)
Definition candidate (rotatedPiece : option matrix) (s : State)
    : option matrix :=
  match rotatedPiece with
  | Some m => Some m
  | None => piece <$> fallingPieceObj s
  end.

Definition O_shape : matrix := [ [Num 1; Num 1]; [Num 1; Num 1] ].

Definition I_shape : matrix :=
  [ [Num 0; Num 1; Num 0; Num 0];
    [Num 0; Num 1; Num 0; Num 0];
    [Num 0; Num 1; Num 0; Num 0];
    [Num 0; Num 1; Num 0; Num 0] ].

Definition J_shape : matrix :=
  [ [Num 0; Num 1; Num 0];
    [Num 0; Num 1; Num 0];
    [Num 1; Num 1; Num 0] ].

(** [m[i][j]], [undefined] outside the matrix. *)
Definition cellAt (m : matrix) (i j : nat) : cell :=
  readCell (default [] (m !! i)) j.

(** The board cell in column [p] of row [q]. *)
Definition boardCell (g : matrix) (p q : Z) : cell :=
  cellAt g (Z.to_nat q) (Z.to_nat p).

(** A falling piece has a fill-code of 1 to 7 and all its filled cells on
    the board. *)
Definition piece_ok (f : FallingPiece) : Prop :=
  1 <= colorIndex f <= 7 /\
  forall i j, filledAt (piece f) i j ->
              inside (x f + Z.of_nat j) (y f + Z.of_nat i).

Definition state_inv (s : State) : Prop :=
  board_wf (grid s) /\
  forall f, fallingPieceObj s = Some f -> piece_ok f.

(** What a run of the lock loops leaves: the board is well formed, cells
    holding the fill-code keep it, and cells not written keep their
    value. *)
Definition locked_from (g g' : matrix) (v : cell) (written : Z -> Z -> Prop)
    : Prop :=
  board_wf g' /\
  (forall p q, inside p q -> boardCell g p q = v -> boardCell g' p q = v) /\
  (forall p q, written p q -> boardCell g' p q = v) /\
  (forall p q, inside p q -> ~ written p q ->
               boardCell g' p q = boardCell g p q).

(** Some filled cell of the piece lies in column [p] of row [q]. *)
Definition covers (f : FallingPiece) (p q : Z) : Prop :=
  exists i j, filledAt (piece f) i j /\
              p = x f + Z.of_nat j /\ q = y f + Z.of_nat i.

(** [k] calls of [m] in a row, stopping at the first that throws. *)
Fixpoint times (k : nat) (m : M unit) : M unit :=
  match k with
  | O => ret tt
  | S k' => m ;;; times k' m
  end.

(** The empty board with an O-shape of fill-code 7 locked in columns 4
    and 5 of rows 18 and 19. *)
Definition lockedO : matrix :=
  replicate 18 emptyRow ++
  [ [Num 0; Num 0; Num 0; Num 0; Num 7; Num 7; Num 0; Num 0; Num 0; Num 0];
    [Num 0; Num 0; Num 0; Num 0; Num 7; Num 7; Num 0; Num 0; Num 0; Num 0] ].

(** The state after [k] timer ticks that each draw the O-shape. *)
Definition afterTicks (k : nat) : State :=
  Nat.iter k (fun s => snd (newGameState 6 s)) loaded.

(** A row is complete when every cell of it is nonzero. *)
Definition complete (row : list cell) : bool :=
  forallb (fun c => negb (looseEq c 0)) row.

(** The number of complete rows of a board, and its other rows in order. *)
Definition completeRows (g : matrix) : nat :=
  length (List.filter complete g).

Definition incompleteRows (g : matrix) : matrix :=
  List.filter (fun row => negb (complete row)) g.

Definition wide (g : matrix) : Prop :=
  Forall (fun row => length row = Z.to_nat COLS) g.

(** The number of rows one pass of [checkGrid] clears. *)
Definition clearCount (g : matrix) : option nat :=
  snd <$> scan (length g) 0 g 0.

Definition fullRow : list cell := replicate 10 (Num 1).

(** An empty board but for rows 18 and 19, which are complete. *)
Definition twoFullRows : matrix :=
  replicate 18 emptyRow ++ [fullRow; fullRow].

(** An [n] by [n] matrix. *)
Definition square (n : nat) (m : matrix) : Prop :=
  length m = n /\ Forall (fun row => length row = n) m.

(** What [rotate] builds when no read of [piece[j]] fails. *)
Definition transposeOf (m : matrix) : matrix :=
  imap (fun i row => (fun j => cellAt m j i) <$> seq 0 (length row)) m.

Definition rotationOf (m : matrix) : matrix := reverse <$> transposeOf m.

(** [k] rotations in a row, each of the matrix the one before built. *)
Fixpoint rotations (k : nat) (m : matrix) : option matrix :=
  match k with
  | O => Some m
  | S k' =>
      match rotations k' m with
      | Some m' => rotateMatrix m'
      | None => None
      end
  end.

(** A shape with its fill-code at offsets [(cx, cy)] over an empty board,
    in a running game. *)
Definition shape_at (m : matrix) (code cx cy : Z) : State :=
  mkState generateGrid (Some (mkPiece m code cx cy)) 0 (Some 1%nat) true
          [1%nat] 2 0.

Definition O_at (cx cy : Z) : State := shape_at O_shape 7 cx cy.

(** ** Further notions for the properties of the whole game *)

(** The four operations that act on the falling piece. *)
Definition pieceMoves : list (M unit) := [moveDown; moveLeft; moveRight; rotate].

(** The running flag and the browser's timers agree: a running game has
    exactly the timer [gameInterval] names, a stopped one has none. *)
Definition timers_ok (s : State) : Prop :=
  if isGameRunning s then
    exists id, gameInterval s = Some id /\ timers s = [id]
  else timers s = [].

(** The matrix of a falling piece is square of side at most 4. *)
Definition piece_shape_ok (f : FallingPiece) : Prop :=
  exists n, (n <= 4)%nat /\ square n (piece f).

(** What every operation of the engine keeps: the board and piece are
    well formed, the timers agree with the running flag, the score is a
    non-negative multiple of 10, and at most four rows are complete, none
    while a piece is falling. *)
Definition core_inv (s : State) : Prop :=
  state_inv s /\
  timers_ok s /\
  (forall f, fallingPieceObj s = Some f -> piece_shape_ok f) /\
  (0 <= score s /\ (10 | score s)) /\
  ((completeRows (grid s) <= 4)%nat /\
   (fallingPieceObj s <> None -> completeRows (grid s) = 0%nat)).

(** Between two events a falling piece has also left the spawn row. *)
Definition game_inv (s : State) : Prop :=
  core_inv s /\
  forall f, fallingPieceObj s = Some f -> 1 <= y f.

(** The state [moveDown] leaves when it locks piece [f] and the board
    becomes [g']. *)
Definition lockedState (s : State) (f : FallingPiece) (g' : matrix) : State :=
  if y f =? 0 then
    mkState g' None (score s) (gameInterval s) false
            (match gameInterval s with
             | Some id => filter (fun t => t <> id) (timers s)
             | None => timers s
             end)
            (nextTimer s) (S (pendingGameOver s))
  else
    mkState g' None (score s) (gameInterval s) (isGameRunning s)
            (timers s) (nextTimer s) (pendingGameOver s).

(** The state in which a tick calls [moveDown]: after the pass of
    [checkGrid] and, when no piece is falling, the spawn of one. *)
Definition beforeStep (ran : nat) (s : State) : State :=
  let s1 := snd (checkGrid s) in
  match fallingPieceObj s1, randomPieceObject ran with
  | None, Some f => setFallingPieceObj (Some f) s1
  | _, _ => s1
  end.

(** ** The theme toggle

    The page keeps the theme in three places: the class [dark-theme] of
    the body, the entry [theme] of the local storage, and the background
    colour [COLORS[0]] the board is drawn with. *)

Record Theme : Type := mkTheme {
  darkTheme : bool;
  storedTheme : option string;
  background : string
}.

(** [COLORS[0] = isDark ? "#1a1a1a" : "#ffffff"]. *)
Definition updateCanvasColors (t : Theme) : Theme :=
  mkTheme (darkTheme t) (storedTheme t)
          (if darkTheme t then "#1a1a1a"%string else "#ffffff"%string).

(** [localStorage.getItem('theme') || 'dark']: a missing entry and the
    empty string both give ['dark']. *)
Definition currentTheme (stored : option string) : string :=
  match stored with
  | None => "dark"%string
  | Some EmptyString => "dark"%string
  | Some str => str
  end.

(** The script as it loads: the class is removed for ['light'] and added
    otherwise, whatever the page had, and the background colour is set
    from the class. *)
Definition loadTheme (stored : option string) : Theme :=
  updateCanvasColors
    (mkTheme (negb (String.eqb (currentTheme stored) "light"))
             stored "#1a1a1a"%string).

(** A click on the toggle: the class is toggled, the new theme stored,
    and the background colour set from the class. *)
Definition themeToggleClick (t : Theme) : Theme :=
  let dark := negb (darkTheme t) in
  updateCanvasColors
    (mkTheme dark
             (Some (if dark then "dark"%string else "light"%string))
             (background t)).

(** * The model on small inputs *)

Example shapes_named :
  SHAPES !! 0%nat = Some I_shape /\ SHAPES !! 1%nat = Some J_shape /\
  SHAPES !! 6%nat = Some O_shape.
Proof. repeat split. Qed.

Example collision_at_floor :
  collisionAt generateGrid O_shape 4 18 = Some false /\
  collisionAt generateGrid O_shape 4 19 = Some true /\
  collisionAt generateGrid O_shape (-1) 0 = Some true /\
  collisionAt generateGrid O_shape 9 0 = Some true.
Proof. repeat split. Qed.

(** With fewer than 20 rows the bounds test still lets row 19 through and
    the read of [grid[19][p]] throws. *)
Example collision_short_board :
  collisionAt (replicate 19 emptyRow) O_shape 4 18 = None.
Proof. reflexivity. Qed.

Example rotate_I_shape :
  rotateMatrix I_shape =
  Some [ [Num 0; Num 0; Num 0; Num 0];
         [Num 1; Num 1; Num 1; Num 1];
         [Num 0; Num 0; Num 0; Num 0];
         [Num 0; Num 0; Num 0; Num 0] ].
Proof. reflexivity. Qed.

Example rotate_J_shape :
  rotateMatrix J_shape =
  Some [ [Num 1; Num 0; Num 0];
         [Num 1; Num 1; Num 1];
         [Num 0; Num 0; Num 0] ].
Proof. reflexivity. Qed.

(** On a matrix that is not square [rotate] reads outside it. *)
Example rotate_ragged :
  rotateMatrix [ [Num 1; Num 1; Num 1]; [Num 1] ] = None /\
  rotateMatrix [ [Num 1]; [Num 1; Num 1] ] =
  Some [ [Num 1]; [Num 1; Undefined] ].
Proof. split; reflexivity. Qed.

Example write_past_row_end :
  writeCell [ [Num 0; Num 0] ] 0 3 (Num 7) =
  Some [ [Num 0; Num 0; Undefined; Num 7] ] /\
  writeCell [ [Num 0; Num 0] ] 1 0 (Num 7) = None /\
  writeCell [ [Num 0; Num 0] ] 0 (-1) (Num 7) = Some [ [Num 0; Num 0] ].
Proof. repeat split. Qed.

Example scan_twoFullRows :
  scan 20 0 twoFullRows 0 = Some (generateGrid, 2%nat).
Proof. reflexivity. Qed.

Example lineScore_table :
  lineScore 0 5 = 5 /\ lineScore 1 5 = 15 /\ lineScore 2 5 = 35 /\
  lineScore 3 5 = 55 /\ lineScore 4 5 = 105 /\ lineScore 20 5 = 105.
Proof. repeat split. Qed.

(** * Properties of collision *)

Lemma looseEq_true c n : looseEq c n = true <-> c = Num n.
Proof.
  destruct c as [m|]; simpl; [|split; [discriminate|congruence]].
  rewrite Z.eqb_eq. split; congruence.
Qed.

Lemma looseEq_false c n : looseEq c n = false <-> c <> Num n.
Proof.
  rewrite <- looseEq_true. destruct (looseEq c n); split; congruence.
Qed.

Lemma inside_test p q :
  (0 <=? p) && (p <? COLS) && (0 <=? q) && (q <? ROWS) = true <-> inside p q.
Proof. unfold inside. rewrite !andb_true_iff. lia. Qed.

Lemma board_wf_lookup g p q :
  board_wf g -> inside p q ->
  exists row n, g !! Z.to_nat q = Some row /\
                row !! Z.to_nat p = Some (Num n) /\ 0 <= n <= 7.
Proof.
  intros [Hlen Hrows] [Hp Hq].
  destruct (lookup_lt_is_Some_2 g (Z.to_nat q)) as [row Hrow]; [lia|].
  rewrite Forall_lookup in Hrows.
  destruct (Hrows _ _ Hrow) as [Hw Hcells].
  destruct (lookup_lt_is_Some_2 row (Z.to_nat p)) as [c Hc]; [lia|].
  rewrite Forall_lookup in Hcells.
  specialize (Hcells _ _ Hc). destruct c as [n|]; [|contradiction].
  eauto.
Qed.

Lemma cellTest_wf g p q :
  board_wf g ->
  exists b, cellTest g p q = Some b /\ (b = true <-> blocked g p q).
Proof.
  intros Hwf. unfold cellTest, blocked.
  destruct ((0 <=? p) && (p <? COLS) && (0 <=? q) && (q <? ROWS)) eqn:E.
  - apply inside_test in E.
    destruct (board_wf_lookup g p q Hwf E) as (row & n & Hrow & Hc & Hn).
    rewrite Hrow. eexists; split; [reflexivity|].
    unfold readCell. rewrite Hc. simpl. rewrite Z.ltb_lt. split.
    + intros Hpos. right. split; [assumption|].
      exists row, (Num n). repeat split; try assumption.
      intros [= ->]. lia.
    + intros [Hout | (_ & row' & c & Hrow' & Hc' & Hne)]; [tauto|].
      rewrite Hrow in Hrow'. injection Hrow' as <-.
      rewrite Hc in Hc'. injection Hc' as <-.
      destruct (Z.eq_dec n 0) as [-> | ?]; [congruence | lia].
  - exists true. split; [reflexivity|]. split; [|reflexivity].
    intros _. left. rewrite <- inside_test. congruence.
Qed.

Lemma collision_cols_unfold g cx cy i c row j :
  collision_cols g cx cy i (c :: row) j =
  if looseEq c 1 then
    match cellTest g (cx + Z.of_nat j) (cy + Z.of_nat i) with
    | Some false => collision_cols g cx cy i row (S j)
    | r => r
    end
  else collision_cols g cx cy i row (S j).
Proof.
  simpl. unfold cellTest.
  destruct (looseEq c 1); [|reflexivity].
  destruct (_ && _); [|reflexivity].
  destruct (g !! _); [|reflexivity].
  destruct (greater _ _); reflexivity.
Qed.

Lemma collision_cols_wf g cx cy i row j0 :
  board_wf g ->
  exists b, collision_cols g cx cy i row j0 = Some b /\
    (b = true <->
     exists j, row !! j = Some (Num 1) /\
               blocked g (cx + Z.of_nat (j0 + j)) (cy + Z.of_nat i)).
Proof.
  intros Hwf. revert j0. induction row as [|c row IH]; intros j0.
  - exists false. split; [reflexivity|]. split; [discriminate|].
    intros (j & Hj & _). discriminate.
  - rewrite collision_cols_unfold.
    destruct (IH (S j0)) as (b & Hb & Hiff).
    destruct (looseEq c 1) eqn:Ec.
    + apply looseEq_true in Ec. subst c.
      destruct (cellTest_wf g (cx + Z.of_nat j0) (cy + Z.of_nat i) Hwf)
        as (t & Ht & Htiff).
      rewrite Ht. destruct t.
      * exists true. split; [reflexivity|]. split; [|reflexivity].
        intros _. exists 0%nat. split; [reflexivity|].
        rewrite Nat.add_0_r. apply Htiff. reflexivity.
      * exists b. split; [assumption|]. rewrite Hiff. split.
        -- intros (j & Hj & Hbl). exists (S j). split; [assumption|].
           replace (j0 + S j)%nat with (S j0 + j)%nat by lia. assumption.
        -- intros ([|j] & Hj & Hbl).
           ++ rewrite Nat.add_0_r in Hbl. apply Htiff in Hbl. discriminate.
           ++ exists j. split; [assumption|].
              replace (S j0 + j)%nat with (j0 + S j)%nat by lia. assumption.
    + apply looseEq_false in Ec.
      exists b. split; [assumption|]. rewrite Hiff. split.
      * intros (j & Hj & Hbl). exists (S j). split; [assumption|].
        replace (j0 + S j)%nat with (S j0 + j)%nat by lia. assumption.
      * intros ([|j] & Hj & Hbl).
        -- simpl in Hj. congruence.
        -- exists j. split; [assumption|].
           replace (S j0 + j)%nat with (j0 + S j)%nat by lia. assumption.
Qed.

Lemma collision_rows_wf g cx cy m i0 :
  board_wf g ->
  exists b, collision_rows g cx cy m i0 = Some b /\
    (b = true <->
     exists i j, filledAt m i j /\
                 blocked g (cx + Z.of_nat j) (cy + Z.of_nat (i0 + i))).
Proof.
  intros Hwf. revert i0. induction m as [|row m IH]; intros i0.
  - exists false. split; [reflexivity|]. split; [discriminate|].
    intros (i & j & (r & Hr & _) & _). discriminate.
  - simpl.
    destruct (collision_cols_wf g cx cy i0 row 0 Hwf) as (t & Ht & Htiff).
    destruct (IH (S i0)) as (b & Hb & Hiff).
    rewrite Ht. destruct t.
    + exists true. split; [reflexivity|]. split; [|reflexivity].
      intros _. destruct Htiff as [Hex _].
      destruct (Hex eq_refl) as (j & Hj & Hbl).
      exists 0%nat, j. split; [exists row; split; [reflexivity|assumption]|].
      rewrite Nat.add_0_r. assumption.
    + exists b. split; [assumption|]. rewrite Hiff. split.
      * intros (i & j & (r & Hr & Hj) & Hbl). exists (S i), j.
        split; [exists r; split; assumption|].
        replace (i0 + S i)%nat with (S i0 + i)%nat by lia. assumption.
      * intros ([|i] & j & (r & Hr & Hj) & Hbl).
        -- simpl in Hr. injection Hr as <-.
           rewrite Nat.add_0_r in Hbl.
           destruct Htiff as [_ Habs]. discriminate Habs.
           exists j. split; assumption.
        -- exists i, j. split; [exists r; split; assumption|].
           replace (S i0 + i)%nat with (i0 + S i)%nat by lia. assumption.
Qed.

Lemma collisionAt_wf g m cx cy :
  board_wf g ->
  exists b, collisionAt g m cx cy = Some b /\
    (b = true <->
     exists i j, filledAt m i j /\
                 blocked g (cx + Z.of_nat j) (cy + Z.of_nat i)).
Proof.
  intros Hwf. apply (collision_rows_wf g cx cy m 0 Hwf).
Qed.

(** A test that finds no collision has seen every filled cell inside the
    board, whatever the board. *)

Lemma cellTest_false_inside g p q : cellTest g p q = Some false -> inside p q.
Proof.
  unfold cellTest.
  destruct (_ && _) eqn:E; [|discriminate].
  intros _. apply inside_test. assumption.
Qed.

Lemma collision_cols_false g cx cy i row j0 :
  collision_cols g cx cy i row j0 = Some false ->
  forall j, row !! j = Some (Num 1) ->
            cellTest g (cx + Z.of_nat (j0 + j)) (cy + Z.of_nat i) = Some false.
Proof.
  revert j0. induction row as [|c row IH]; intros j0 H j Hj; [discriminate|].
  rewrite collision_cols_unfold in H.
  destruct j as [|j]; simpl in Hj.
  - injection Hj as ->. simpl in H. rewrite Nat.add_0_r.
    destruct (cellTest g _ _) as [[|]|]; congruence.
  - replace (j0 + S j)%nat with (S j0 + j)%nat by lia.
    apply IH; [|assumption].
    destruct (looseEq c 1); [|assumption].
    destruct (cellTest g _ _) as [[|]|]; congruence.
Qed.

Lemma collision_rows_false g cx cy m i0 :
  collision_rows g cx cy m i0 = Some false ->
  forall i j, filledAt m i j ->
              cellTest g (cx + Z.of_nat j) (cy + Z.of_nat (i0 + i)) = Some false.
Proof.
  revert i0. induction m as [|row m IH]; intros i0 H i j (r & Hr & Hj);
    [discriminate|].
  simpl in H.
  destruct (collision_cols g cx cy i0 row 0) as [[|]|] eqn:E; try discriminate.
  destruct i as [|i]; simpl in Hr.
  - injection Hr as <-. rewrite Nat.add_0_r.
    apply (collision_cols_false _ _ _ _ _ _ E j Hj).
  - replace (i0 + S i)%nat with (S i0 + i)%nat by lia.
    apply IH; [assumption|]. exists r. split; assumption.
Qed.

Lemma collisionAt_false g m cx cy :
  collisionAt g m cx cy = Some false ->
  forall i j, filledAt m i j ->
              cellTest g (cx + Z.of_nat j) (cy + Z.of_nat i) = Some false.
Proof. intros H i j Hf. apply (collision_rows_false g cx cy m 0 H i j Hf). Qed.

Lemma collisionAt_false_inside g m cx cy :
  collisionAt g m cx cy = Some false ->
  forall i j, filledAt m i j -> inside (cx + Z.of_nat j) (cy + Z.of_nat i).
Proof.
  intros H i j Hf. eapply cellTest_false_inside, collisionAt_false; eauto.
Qed.

Lemma collision_pure cx cy rp s : snd (collision cx cy rp s) = s.
Proof.
  unfold collision. destruct rp; [reflexivity|].
  destruct (fallingPieceObj s); reflexivity.
Qed.

Lemma collision_candidate cx cy rp s m :
  candidate rp s = Some m ->
  collision cx cy rp s = (collisionAt (grid s) m cx cy, s).
Proof.
  unfold candidate, collision. destruct rp as [m'|].
  - intros [= ->]. reflexivity.
  - destruct (fallingPieceObj s); simpl; [|discriminate].
    intros [= ->]. reflexivity.
Qed.

Lemma generateGrid_wf : board_wf generateGrid.
Proof.
  split; [reflexivity|].
  unfold generateGrid. apply Forall_replicate.
  split; [reflexivity|].
  apply Forall_replicate. simpl. lia.
Qed.


(** Claim C4.  On a well-formed board, for every shape matrix and every
    candidate position, [collision] returns normally, and returns [true]
    exactly when some cell of the matrix holding 1 lands outside the board
    or on a nonzero board cell.  Only the cells holding 1 count: a matrix
    with the same cells holding 1 gets the same answer, and one with none
    never collides.  The game variables are left as they were. *)
Theorem collision_correct (s : State) (cx cy : Z) (rp : option matrix)
    (m : matrix) :
  board_wf (grid s) ->
  candidate rp s = Some m ->
  exists b,
    collision cx cy rp s = (Some b, s) /\
    (b = true <->
     exists i j, filledAt m i j /\
                 blocked (grid s) (cx + Z.of_nat j) (cy + Z.of_nat i)) /\
    (forall m', (forall i j, filledAt m' i j <-> filledAt m i j) ->
                collision cx cy (Some m') s = (Some b, s)) /\
    ((forall i j, ~ filledAt m i j) -> b = false).
Proof.
  intros Hwf Hm.
  destruct (collisionAt_wf (grid s) m cx cy Hwf) as (b & Hb & Hiff).
  exists b. rewrite (collision_candidate _ _ _ _ _ Hm), Hb.
  split; [reflexivity|]. split; [assumption|]. split.
  - intros m' Hsame.
    destruct (collisionAt_wf (grid s) m' cx cy Hwf) as (b' & Hb' & Hiff').
    simpl. rewrite Hb'. f_equal. f_equal.
    assert (b' = true <-> b = true) as Hbb.
    { rewrite Hiff, Hiff'. split; intros (i & j & Hf & Hbl); exists i, j;
        (split; [apply Hsame; assumption | assumption]). }
    destruct b, b'; try reflexivity; destruct Hbb; intuition congruence.
  - intros Hnone. destruct b; [|reflexivity].
    destruct Hiff as [Hex _]. destruct (Hex eq_refl) as (i & j & Hf & _).
    destruct (Hnone i j Hf).
Qed.

Lemma collision_correct_witness :
  exists b,
    collision 4 19 (Some O_shape)
      (mkState generateGrid None 0 None false [] 1 0) =
    (Some b, mkState generateGrid None 0 None false [] 1 0) /\
    (b = true <->
     exists i j, filledAt O_shape i j /\
                 blocked generateGrid (4 + Z.of_nat j) (19 + Z.of_nat i)) /\
    (forall m', (forall i j, filledAt m' i j <-> filledAt O_shape i j) ->
                collision 4 19 (Some m')
                  (mkState generateGrid None 0 None false [] 1 0) =
                (Some b, mkState generateGrid None 0 None false [] 1 0)) /\
    ((forall i j, ~ filledAt O_shape i j) -> b = false).
Proof.
  apply (collision_correct (mkState generateGrid None 0 None false [] 1 0)
           4 19 (Some O_shape) O_shape).
  - simpl. exact generateGrid_wf.
  - reflexivity.
Defined.

(** * moveLeft, moveRight and rotate *)

Lemma setFallingPieceObj_same s f :
  fallingPieceObj s = Some f ->
  setFallingPieceObj (Some (withX f (x f))) s = s.
Proof. destruct s, f. simpl. intros ->. reflexivity. Qed.

Lemma moveLeft_run s f :
  fallingPieceObj s = Some f ->
  moveLeft s =
  match collisionAt (grid s) (piece f) (x f - 1) (y f) with
  | Some false => (Some tt, setFallingPieceObj (Some (withX f (x f - 1))) s)
  | Some true => (Some tt, s)
  | None => (None, s)
  end.
Proof.
  intros Hf. unfold moveLeft, bind, get, collision. rewrite Hf. simpl.
  rewrite Hf. destruct (collisionAt _ _ _ _) as [[|]|]; reflexivity.
Qed.

Lemma moveRight_run s f :
  fallingPieceObj s = Some f ->
  moveRight s =
  match collisionAt (grid s) (piece f) (x f + 1) (y f) with
  | Some false => (Some tt, setFallingPieceObj (Some (withX f (x f + 1))) s)
  | Some true => (Some tt, s)
  | None => (None, s)
  end.
Proof.
  intros Hf. unfold moveRight, bind, get, collision. rewrite Hf. simpl.
  rewrite Hf. destruct (collisionAt _ _ _ _) as [[|]|]; reflexivity.
Qed.

(** Claim C7.  With an active piece, [moveLeft] and [moveRight] change
    nothing but the horizontal offset of the piece: it goes down (up) by 1
    when the test of the target position returns no collision and stays as
    it is otherwise.  A piece with a filled cell in board column 0 is not
    moved by [moveLeft]. *)
Theorem move_sideways_frame (s : State) (f : FallingPiece) :
  fallingPieceObj s = Some f ->
  (exists nx,
      snd (moveLeft s) = setFallingPieceObj (Some (withX f nx)) s /\
      (collisionAt (grid s) (piece f) (x f - 1) (y f) = Some false ->
       nx = x f - 1) /\
      (collisionAt (grid s) (piece f) (x f - 1) (y f) <> Some false ->
       nx = x f)) /\
  (exists nx,
      snd (moveRight s) = setFallingPieceObj (Some (withX f nx)) s /\
      (collisionAt (grid s) (piece f) (x f + 1) (y f) = Some false ->
       nx = x f + 1) /\
      (collisionAt (grid s) (piece f) (x f + 1) (y f) <> Some false ->
       nx = x f)) /\
  ((exists i j, filledAt (piece f) i j /\ x f + Z.of_nat j = 0) ->
   snd (moveLeft s) = s).
Proof.
  intros Hf. split; [|split].
  - rewrite (moveLeft_run s f Hf).
    destruct (collisionAt _ _ _ _) as [[|]|] eqn:E.
    + exists (x f). rewrite setFallingPieceObj_same by assumption.
      split; [reflexivity|]. split; [discriminate|reflexivity].
    + exists (x f - 1). split; [reflexivity|]. split; [reflexivity|congruence].
    + exists (x f). rewrite setFallingPieceObj_same by assumption.
      split; [reflexivity|]. split; [discriminate|reflexivity].
  - rewrite (moveRight_run s f Hf).
    destruct (collisionAt _ _ _ _) as [[|]|] eqn:E.
    + exists (x f). rewrite setFallingPieceObj_same by assumption.
      split; [reflexivity|]. split; [discriminate|reflexivity].
    + exists (x f + 1). split; [reflexivity|]. split; [reflexivity|congruence].
    + exists (x f). rewrite setFallingPieceObj_same by assumption.
      split; [reflexivity|]. split; [discriminate|reflexivity].
  - intros (i & j & Hfill & Hcol).
    rewrite (moveLeft_run s f Hf).
    destruct (collisionAt _ _ _ _) as [[|]|] eqn:E; try reflexivity.
    destruct (collisionAt_false_inside _ _ _ _ E i j Hfill) as [Hp _]. lia.
Qed.

Lemma move_sideways_frame_witness :
  fallingPieceObj (O_at 0 5) = Some (mkPiece O_shape 7 0 5) /\
  snd (moveLeft (O_at 0 5)) = O_at 0 5 /\
  snd (moveRight (O_at 0 5)) = O_at 1 5.
Proof.
  split; [reflexivity|].
  destruct (move_sideways_frame (O_at 0 5) (mkPiece O_shape 7 0 5) eq_refl)
    as (_ & (nx & Hright & Hnx & _) & Hleft).
  split.
  - apply Hleft. exists 0%nat, 0%nat. split; [|reflexivity].
    exists [Num 1; Num 1]. split; reflexivity.
  - rewrite Hright, (Hnx eq_refl). reflexivity.
Defined.

Lemma rotate_run s f :
  fallingPieceObj s = Some f ->
  rotate s =
  match rotateMatrix (piece f) with
  | None => (None, s)
  | Some rp =>
      match collisionAt (grid s) rp (x f) (y f) with
      | Some false => (Some tt, setFallingPieceObj (Some (withPiece f rp)) s)
      | Some true => (Some tt, s)
      | None => (None, s)
      end
  end.
Proof.
  intros Hf. unfold rotate, bind, get. rewrite Hf.
  destruct (rotateMatrix (piece f)) as [rp|]; [|reflexivity].
  unfold collision.
  destruct (collisionAt _ _ _ _) as [[|]|]; reflexivity.
Qed.

(** Claim C6.  Without an active piece [rotate] returns at once and changes
    nothing.  With one, when the rotated matrix collides at the offsets of
    the piece, [rotate] returns with every game variable as it was: matrix,
    offsets, board and score; no other offset is tried. *)
Theorem rotate_rejected (s : State) :
  (fallingPieceObj s = None -> rotate s = (Some tt, s)) /\
  (forall f rp,
      fallingPieceObj s = Some f ->
      rotateMatrix (piece f) = Some rp ->
      collisionAt (grid s) rp (x f) (y f) = Some true ->
      rotate s = (Some tt, s)).
Proof.
  split.
  - intros Hnone. unfold rotate, bind, get. rewrite Hnone. reflexivity.
  - intros f rp Hf Hrot Hhit.
    rewrite (rotate_run s f Hf), Hrot, Hhit. reflexivity.
Qed.

(** * Rotation of square matrices *)

Lemma transposedRow_total m i row :
  (length row <= length m)%nat ->
  transposedRow m i row =
  Some ((fun j => cellAt m j i) <$> seq 0 (length row)).
Proof.
  intros Hlen. unfold transposedRow. apply mapM_Some.
  apply Forall2_fmap_r, Forall_Forall2_diag, Forall_forall.
  intros j Hj. apply elem_of_seq in Hj.
  destruct (lookup_lt_is_Some_2 m j) as [r Hr]; [lia|].
  unfold transposedCell, cellAt, compose. rewrite Hr. reflexivity.
Qed.

Lemma transposed_total m :
  Forall (fun row => (length row <= length m)%nat) m ->
  transposed m = Some (transposeOf m).
Proof.
  intros Hrows. unfold transposed, transposeOf. apply mapM_Some.
  apply Forall2_same_length_lookup. split.
  - rewrite !length_imap. reflexivity.
  - intros i [i' row] t Hir Ht.
    rewrite list_lookup_imap in Hir. rewrite list_lookup_imap in Ht.
    destruct (m !! i) as [r|] eqn:Hr; [|discriminate].
    simpl in Hir, Ht. injection Hir as <- <-. injection Ht as <-.
    simpl. apply transposedRow_total.
    rewrite Forall_lookup in Hrows. apply (Hrows _ _ Hr).
Qed.

Lemma square_rows n m :
  square n m -> Forall (fun row => (length row <= length m)%nat) m.
Proof.
  intros [Hlen Hrows]. eapply Forall_impl; [exact Hrows|].
  simpl. intros row Hrow. lia.
Qed.

Lemma rotateMatrix_square n m :
  square n m -> rotateMatrix m = Some (rotationOf m).
Proof.
  intros Hsq. unfold rotateMatrix.
  rewrite (transposed_total m (square_rows n m Hsq)). reflexivity.
Qed.

Lemma square_lookup n m i :
  square n m -> (i < n)%nat -> exists row, m !! i = Some row /\ length row = n.
Proof.
  intros [Hlen Hrows] Hi.
  destruct (lookup_lt_is_Some_2 m i) as [row Hrow]; [lia|].
  exists row. split; [assumption|].
  rewrite Forall_lookup in Hrows. apply (Hrows _ _ Hrow).
Qed.

Lemma rotationOf_lookup n m i :
  square n m -> (i < n)%nat ->
  rotationOf m !! i =
  Some (reverse ((fun j => cellAt m j i) <$> seq 0 n)).
Proof.
  intros Hsq Hi. destruct (square_lookup n m i Hsq Hi) as (row & Hrow & Hlen).
  unfold rotationOf, transposeOf.
  rewrite list_lookup_fmap, list_lookup_imap, Hrow. simpl.
  rewrite Hlen. reflexivity.
Qed.

Lemma rotationOf_square n m : square n m -> square n (rotationOf m).
Proof.
  intros Hsq. split.
  - unfold rotationOf, transposeOf. rewrite length_fmap, length_imap.
    apply Hsq.
  - apply Forall_lookup. intros i row Hrow.
    assert (i < n)%nat as Hi.
    { apply lookup_lt_Some in Hrow. unfold rotationOf, transposeOf in Hrow.
      rewrite length_fmap, length_imap in Hrow. destruct Hsq. lia. }
    rewrite (rotationOf_lookup n m i Hsq Hi) in Hrow. injection Hrow as <-.
    rewrite length_reverse, length_fmap, length_seq. reflexivity.
Qed.

Lemma rotationOf_cellAt n m i j :
  square n m -> (i < n)%nat -> (j < n)%nat ->
  cellAt (rotationOf m) i j = cellAt m (n - S j) i.
Proof.
  intros Hsq Hi Hj. unfold cellAt at 1.
  rewrite (rotationOf_lookup n m i Hsq Hi). simpl. unfold readCell.
  rewrite reverse_lookup by (rewrite length_fmap, length_seq; assumption).
  rewrite length_fmap, length_seq, list_lookup_fmap.
  rewrite lookup_seq_lt by lia. reflexivity.
Qed.

Lemma square_ext n m1 m2 :
  square n m1 -> square n m2 ->
  (forall i j, (i < n)%nat -> (j < n)%nat -> cellAt m1 i j = cellAt m2 i j) ->
  m1 = m2.
Proof.
  intros Hsq1 Hsq2 Hcells. apply list_eq. intros i.
  destruct (decide (i < n)%nat) as [Hi|Hi].
  - destruct (square_lookup n m1 i Hsq1 Hi) as (r1 & Hr1 & Hl1).
    destruct (square_lookup n m2 i Hsq2 Hi) as (r2 & Hr2 & Hl2).
    rewrite Hr1, Hr2. f_equal. apply list_eq. intros j.
    destruct (decide (j < n)%nat) as [Hj|Hj].
    + specialize (Hcells i j Hi Hj). unfold cellAt, readCell in Hcells.
      rewrite Hr1, Hr2 in Hcells. simpl in Hcells.
      destruct (lookup_lt_is_Some_2 r1 j) as [c1 Hc1]; [lia|].
      destruct (lookup_lt_is_Some_2 r2 j) as [c2 Hc2]; [lia|].
      rewrite Hc1, Hc2 in *. simpl in Hcells. congruence.
    + rewrite !lookup_ge_None_2 by lia. reflexivity.
  - destruct Hsq1, Hsq2. rewrite !lookup_ge_None_2 by lia. reflexivity.
Qed.

Lemma rotationOf_four n m :
  square n m -> rotationOf (rotationOf (rotationOf (rotationOf m))) = m.
Proof.
  intros Hsq.
  pose proof (rotationOf_square n _ Hsq) as Hsq1.
  pose proof (rotationOf_square n _ Hsq1) as Hsq2.
  pose proof (rotationOf_square n _ Hsq2) as Hsq3.
  pose proof (rotationOf_square n _ Hsq3) as Hsq4.
  apply (square_ext n); try assumption.
  intros i j Hi Hj.
  rewrite (rotationOf_cellAt n _ i j Hsq3 Hi Hj).
  rewrite (rotationOf_cellAt n _ (n - S j) i Hsq2) by lia.
  rewrite (rotationOf_cellAt n _ (n - S i) (n - S j) Hsq1) by lia.
  rewrite (rotationOf_cellAt n _ (n - S (n - S j)) (n - S i) Hsq) by lia.
  f_equal; lia.
Qed.

Lemma bind_ok {A B} (m : M A) (k : A -> M B) s a s' :
  m s = (Some a, s') -> bind m k s = k a s'.
Proof. intros H. unfold bind. rewrite H. reflexivity. Qed.

Lemma rotate_accept n s f :
  fallingPieceObj s = Some f ->
  square n (piece f) ->
  collisionAt (grid s) (rotationOf (piece f)) (x f) (y f) = Some false ->
  rotate s =
  (Some tt, setFallingPieceObj (Some (withPiece f (rotationOf (piece f)))) s).
Proof.
  intros Hf Hsq Hfree.
  rewrite (rotate_run s f Hf), (rotateMatrix_square n _ Hsq), Hfree.
  reflexivity.
Qed.

Lemma withPiece_same s f :
  fallingPieceObj s = Some f ->
  setFallingPieceObj (Some (withPiece f (piece f))) s = s.
Proof. destruct s, f. simpl. intros ->. reflexivity. Qed.

(** Claim C5.  For a falling piece whose matrix is square, four rotations
    in a row give the matrix back, and four calls of [rotate], none of
    which is rejected by the collision test, leave the game as it was. *)
Theorem rotate_four_times (s : State) (f : FallingPiece) (n : nat) :
  fallingPieceObj s = Some f ->
  square n (piece f) ->
  rotations 4 (piece f) = Some (piece f) /\
  ((forall k m', (1 <= k <= 4)%nat -> rotations k (piece f) = Some m' ->
                 collisionAt (grid s) m' (x f) (y f) = Some false) ->
   (rotate ;;; rotate ;;; rotate ;;; rotate) s = (Some tt, s)).
Proof.
  intros Hf Hsq.
  set (m := piece f) in *.
  pose proof (rotationOf_square n _ Hsq) as Hsq1.
  pose proof (rotationOf_square n _ Hsq1) as Hsq2.
  pose proof (rotationOf_square n _ Hsq2) as Hsq3.
  assert (rotations 1 m = Some (rotationOf m)) as R1.
  { simpl. apply (rotateMatrix_square n), Hsq. }
  assert (rotations 2 m = Some (rotationOf (rotationOf m))) as R2.
  { change (rotations 2 m) with
      (match rotations 1 m with Some m' => rotateMatrix m' | None => None end).
    rewrite R1. apply (rotateMatrix_square n), Hsq1. }
  assert (rotations 3 m = Some (rotationOf (rotationOf (rotationOf m)))) as R3.
  { change (rotations 3 m) with
      (match rotations 2 m with Some m' => rotateMatrix m' | None => None end).
    rewrite R2. apply (rotateMatrix_square n), Hsq2. }
  assert (rotations 4 m = Some m) as R4.
  { change (rotations 4 m) with
      (match rotations 3 m with Some m' => rotateMatrix m' | None => None end).
    rewrite R3, (rotateMatrix_square n _ Hsq3).
    f_equal. apply (rotationOf_four n), Hsq. }
  split; [exact R4|].
  intros Hfree.
  pose proof (Hfree 1%nat _ ltac:(lia) R1) as F1.
  pose proof (Hfree 2%nat _ ltac:(lia) R2) as F2.
  pose proof (Hfree 3%nat _ ltac:(lia) R3) as F3.
  pose proof (Hfree 4%nat _ ltac:(lia) R4) as F4.
  set (f1 := withPiece f (rotationOf m)).
  set (f2 := withPiece f (rotationOf (rotationOf m))).
  set (f3 := withPiece f (rotationOf (rotationOf (rotationOf m)))).
  pose proof (rotate_accept n s f Hf Hsq F1) as S1.
  pose proof (rotate_accept n (setFallingPieceObj (Some f1) s) f1
                eq_refl Hsq1 F2) as S2.
  pose proof (rotate_accept n (setFallingPieceObj (Some f2) s) f2
                eq_refl Hsq2 F3) as S3.
  assert (collisionAt (grid (setFallingPieceObj (Some f3) s))
            (rotationOf (piece f3)) (x f3) (y f3) = Some false) as F4'.
  { simpl. rewrite (rotationOf_four n m Hsq). exact F4. }
  pose proof (rotate_accept n (setFallingPieceObj (Some f3) s) f3
                eq_refl Hsq3 F4') as S4.
  simpl in S4. rewrite (rotationOf_four n m Hsq) in S4.
  rewrite (bind_ok _ _ _ _ _ S1). cbv beta.
  rewrite (bind_ok _ _ _ _ _ S2). cbv beta.
  rewrite (bind_ok _ _ _ _ _ S3). cbv beta.
  transitivity (rotate (setFallingPieceObj (Some f3) s)); [reflexivity|].
  rewrite S4. f_equal.
  destruct s, f. simpl in *. subst. reflexivity.
Qed.

Lemma rotate_four_times_witness :
  fallingPieceObj (shape_at J_shape 2 4 5) = Some (mkPiece J_shape 2 4 5) /\
  square 3 J_shape /\
  rotations 4 J_shape = Some J_shape /\
  (rotate ;;; rotate ;;; rotate ;;; rotate) (shape_at J_shape 2 4 5) =
  (Some tt, shape_at J_shape 2 4 5).
Proof.
  assert (square 3 J_shape) as Hsq.
  { split; [reflexivity|]. repeat constructor. }
  split; [reflexivity|]. split; [exact Hsq|].
  destruct (rotate_four_times (shape_at J_shape 2 4 5)
              (mkPiece J_shape 2 4 5) 3 eq_refl Hsq) as [H4 Hrun].
  split; [exact H4|].
  apply Hrun. intros k m' Hk.
  assert (k = 1 \/ k = 2 \/ k = 3 \/ k = 4)%nat as Hcases by lia.
  destruct Hcases as [-> | [-> | [-> | ->]]];
    vm_compute; intros [= <-]; reflexivity.
Defined.

Lemma rotate_rejected_witness :
  fallingPieceObj (shape_at I_shape 1 7 5) = Some (mkPiece I_shape 1 7 5) /\
  rotate (shape_at I_shape 1 7 5) = (Some tt, shape_at I_shape 1 7 5).
Proof.
  split; [reflexivity|].
  apply (proj2 (rotate_rejected (shape_at I_shape 1 7 5))
           (mkPiece I_shape 1 7 5) (rotationOf I_shape));
    reflexivity.
Defined.

(** * checkGrid *)

Lemma scan_total fuel :
  forall i g count,
    (length g <= i + fuel)%nat ->
    exists g' n, scan fuel i g count = Some (g', n) /\ length g' = length g.
Proof.
  induction fuel as [|fuel IH]; intros i g count Hfuel.
  - simpl. destruct (g !! i) as [row|] eqn:Hrow.
    + apply lookup_lt_Some in Hrow. lia.
    + eauto.
  - simpl. destruct (g !! i) as [row|] eqn:Hrow; [|eauto].
    pose proof (lookup_lt_Some _ _ _ Hrow) as Hi.
    destruct (allFilled g row).
    + destruct (IH (S i) (emptyRow :: delete i g) (S count))
        as (g' & n & Hscan & Hlen).
      { simpl. rewrite length_delete by eauto. lia. }
      exists g', n. split; [assumption|].
      rewrite Hlen. simpl. rewrite length_delete by eauto. lia.
    + apply IH. lia.
Qed.

Lemma allFilled_complete g r0 row :
  g !! 0%nat = Some r0 -> length r0 = length row ->
  allFilled g row = complete row.
Proof.
  intros Hr0 Hlen. unfold allFilled, complete. rewrite Hr0. simpl.
  apply eq_iff_eq_true. rewrite !forallb_forall. split.
  - intros H c Hin. apply list_elem_of_In, list_elem_of_lookup in Hin.
    destruct Hin as [j Hj].
    specialize (H j). unfold readCell in H. rewrite Hj in H. apply H.
    apply in_seq. apply lookup_lt_Some in Hj. lia.
  - intros H j Hj. apply in_seq in Hj.
    destruct (lookup_lt_is_Some_2 row j) as [c Hc]; [lia|].
    unfold readCell. rewrite Hc. apply H.
    apply list_elem_of_In, list_elem_of_lookup. eauto.
Qed.

Lemma scan_rows rest :
  forall pre count,
    wide (pre ++ rest) ->
    scan (length rest) (length pre) (pre ++ rest) count =
    Some (replicate (completeRows rest) emptyRow ++ pre ++ incompleteRows rest,
          (count + completeRows rest)%nat).
Proof.
  induction rest as [|r rest IH]; intros pre count Hwide.
  - simpl. rewrite lookup_ge_None_2 by (rewrite length_app; simpl; lia).
    rewrite Nat.add_0_r. reflexivity.
  - simpl scan. rewrite list_lookup_middle by reflexivity.
    assert (allFilled (pre ++ r :: rest) r = complete r) as ->.
    { destruct (lookup_lt_is_Some_2 (pre ++ r :: rest) 0) as [r0 Hr0].
      { rewrite length_app. simpl. lia. }
      apply (allFilled_complete _ r0); [assumption|].
      unfold wide in Hwide. rewrite Forall_lookup in Hwide.
      rewrite (Hwide _ _ Hr0).
      symmetry. apply (Hwide (length pre)).
      apply list_lookup_middle. reflexivity. }
    unfold completeRows, incompleteRows. simpl List.filter.
    destruct (complete r) eqn:Hc; simpl negb; cbv iota.
    + rewrite delete_middle.
      change (emptyRow :: pre ++ rest) with ((emptyRow :: pre) ++ rest).
      change (S (length pre)) with (length (emptyRow :: pre)).
      rewrite IH.
      * unfold completeRows, incompleteRows. simpl length.
        f_equal. f_equal; [|lia].
        rewrite replicate_S, replicate_cons_app, <- app_assoc. reflexivity.
      * unfold wide in *. apply Forall_app in Hwide as [Hpre Hrest].
        apply Forall_cons in Hrest as [_ Hrest].
        apply Forall_app. split; [|assumption].
        apply Forall_cons. split; [reflexivity|assumption].
    + replace (pre ++ r :: rest) with ((pre ++ [r]) ++ rest)
        by (rewrite <- app_assoc; reflexivity).
      replace (S (length pre)) with (length (pre ++ [r]))
        by (rewrite length_app; simpl; lia).
      rewrite IH.
      * unfold completeRows, incompleteRows.
        rewrite <- !app_assoc. reflexivity.
      * rewrite <- app_assoc. exact Hwide.
Qed.

Lemma scan_wide g :
  wide g ->
  scan (length g) 0 g 0 =
  Some (replicate (completeRows g) emptyRow ++ incompleteRows g,
        completeRows g).
Proof. intros Hwide. apply (scan_rows g [] 0%nat Hwide). Qed.

Lemma board_wf_wide g : board_wf g -> wide g.
Proof.
  intros [_ Hrows]. eapply Forall_impl; [exact Hrows|].
  simpl. intros row [Hlen _]. exact Hlen.
Qed.

Lemma clearCount_wide g : wide g -> clearCount g = Some (completeRows g).
Proof. intros Hwide. unfold clearCount. rewrite scan_wide by assumption. reflexivity. Qed.

(** Claim C1, as the program behaves.  One pass of [checkGrid] over a
    well-formed board clears every complete row, adjacent or not: the
    count of the pass is the number of complete rows the board had, and
    the board afterwards is that many empty rows on top of the other rows
    in their order. *)
Theorem checkGrid_clears_all (g : matrix) :
  board_wf g ->
  scan (length g) 0 g 0 =
    Some (replicate (completeRows g) emptyRow ++ incompleteRows g,
          completeRows g) /\
  clearCount g = Some (completeRows g).
Proof.
  intros Hwf. pose proof (board_wf_wide g Hwf) as Hwide.
  split; [apply scan_wide | apply clearCount_wide]; assumption.
Qed.

Lemma checkGrid_clears_all_witness :
  board_wf twoFullRows /\
  completeRows twoFullRows = 2%nat /\
  clearCount twoFullRows = Some 2%nat.
Proof.
  assert (board_wf twoFullRows) as Hwf.
  { apply (bool_decide_unpack _). vm_compute. reflexivity. }
  split; [exact Hwf|]. split; [reflexivity|].
  exact (proj2 (checkGrid_clears_all twoFullRows Hwf)).
Defined.

(** Claim C1, as stated, fails: no board with two adjacent complete rows
    has a pass whose count is below its number of complete rows. *)
Lemma adjacent_rows_both_cleared :
  ~ exists g i r1 r2 n,
      board_wf g /\
      g !! i = Some r1 /\ g !! S i = Some r2 /\
      complete r1 = true /\ complete r2 = true /\
      clearCount g = Some n /\ (n < completeRows g)%nat.
Proof.
  intros (g & i & r1 & r2 & n & Hwf & _ & _ & _ & _ & Hn & Hlt).
  rewrite (clearCount_wide g (board_wf_wide g Hwf)) in Hn.
  injection Hn as <-. lia.
Qed.

(** Claim C3.  A pass of [checkGrid] always finishes, and with count [n]
    it adds to the score 0 for [n = 0], 10 for [n = 1], 30 for [n = 2],
    50 for [n = 3] and 100 for [n >= 4], and nothing else. *)
Theorem checkGrid_score (s : State) :
  exists g n d,
    scan (length (grid s)) 0 (grid s) 0 = Some (g, n) /\
    checkGrid s = (Some tt, setScore (score s + d) (setGrid g s)) /\
    score (snd (checkGrid s)) = score s + d /\
    ((n = 0%nat /\ d = 0) \/ (n = 1%nat /\ d = 10) \/ (n = 2%nat /\ d = 30) \/
     (n = 3%nat /\ d = 50) \/ ((4 <= n)%nat /\ d = 100)).
Proof.
  destruct (scan_total (length (grid s)) 0 (grid s) 0) as (g & n & Hscan & _);
    [lia|].
  exists g, n, (lineScore n (score s) - score s).
  replace (score s + (lineScore n (score s) - score s))
    with (lineScore n (score s)) by lia.
  unfold checkGrid. rewrite Hscan. simpl.
  repeat split.
  unfold lineScore.
  destruct n as [|[|[|[|n]]]]; simpl.
  - left. lia.
  - right; left. lia.
  - right; right; left. lia.
  - right; right; right; left. lia.
  - right; right; right; right. lia.
Qed.

(** * Locking a piece *)

Lemma writeCell_inside g p q v :
  board_wf g -> inside p q -> fillCode v ->
  exists g',
    writeCell g q p v = Some g' /\
    board_wf g' /\
    boardCell g' p q = v /\
    (forall p' q', inside p' q' -> (p', q') <> (p, q) ->
                   boardCell g' p' q' = boardCell g p' q').
Proof.
  intros Hwf Hin Hv.
  destruct (board_wf_lookup g p q Hwf Hin) as (row & n & Hrow & Hc & _).
  pose proof Hwf as [Hlen Hrows].
  pose proof Hin as [Hp Hq].
  assert (length row = Z.to_nat COLS) as Hw.
  { rewrite Forall_lookup in Hrows. apply (Hrows _ _ Hrow). }
  assert (Forall fillCode row) as Hcells.
  { rewrite Forall_lookup in Hrows. apply (Hrows _ _ Hrow). }
  exists (<[Z.to_nat q := <[Z.to_nat p := v]> row]> g).
  split; [|split; [|split]].
  - unfold writeCell, writeRow.
    destruct (q <? 0) eqn:Eq; [apply Z.ltb_lt in Eq; lia|].
    rewrite Hrow.
    destruct (p <? 0) eqn:Ep; [apply Z.ltb_lt in Ep; lia|].
    destruct (Z.to_nat p <? length row)%nat eqn:El; [reflexivity|].
    apply Nat.ltb_ge in El. unfold COLS in *. lia.
  - split; [rewrite length_insert; assumption|].
    apply Forall_insert; [assumption|].
    split; [rewrite length_insert; assumption|].
    apply Forall_insert; assumption.
  - unfold boardCell, cellAt, readCell.
    rewrite list_lookup_insert_eq by (unfold ROWS in *; lia). simpl.
    rewrite list_lookup_insert_eq by (unfold COLS in *; lia). reflexivity.
  - intros p' q' [Hp' Hq'] Hne. unfold boardCell, cellAt, readCell.
    destruct (decide (Z.to_nat q = Z.to_nat q')) as [Heq|Hneq].
    + rewrite <- Heq.
      rewrite list_lookup_insert_eq by (unfold ROWS in *; lia).
      rewrite Hrow. simpl.
      rewrite list_lookup_insert_ne; [reflexivity|].
      intros Hpp. apply Hne. f_equal; lia.
    + rewrite list_lookup_insert_ne by assumption. reflexivity.
Qed.

Lemma assignGrid_inside s p q v :
  board_wf (grid s) -> inside p q -> fillCode v ->
  exists g',
    assignGrid q p v s = (Some tt, setGrid g' s) /\
    board_wf g' /\
    boardCell g' p q = v /\
    (forall p' q', inside p' q' -> (p', q') <> (p, q) ->
                   boardCell g' p' q' = boardCell (grid s) p' q').
Proof.
  intros Hwf Hin Hv.
  destruct (writeCell_inside _ _ _ _ Hwf Hin Hv) as (g' & Hw & Hrest).
  exists g'. unfold assignGrid. rewrite Hw. split; [reflexivity|assumption].
Qed.

Lemma lock_cols_spec f i row :
  forall j0 s,
    board_wf (grid s) ->
    1 <= colorIndex f <= 7 ->
    (forall j, row !! j = Some (Num 1) ->
               inside (x f + Z.of_nat (j0 + j)) (y f + Z.of_nat i)) ->
    exists g',
      lock_cols f i row j0 s = (Some tt, setGrid g' s) /\
      locked_from (grid s) g' (Num (colorIndex f))
        (fun p q => exists j, row !! j = Some (Num 1) /\
                              p = x f + Z.of_nat (j0 + j) /\
                              q = y f + Z.of_nat i).
Proof.
  induction row as [|c row IH]; intros j0 s Hwf Hcode Hin.
  - exists (grid s). split; [destruct s; reflexivity|].
    split; [assumption|]. split; [auto|]. split; [|auto].
    intros p q (j & Hj & _). discriminate.
  - simpl lock_cols.
    assert (forall j, row !! j = Some (Num 1) ->
              inside (x f + Z.of_nat (S j0 + j)) (y f + Z.of_nat i)) as Hin'.
    { intros j Hj. replace (S j0 + j)%nat with (j0 + S j)%nat by lia.
      apply Hin. exact Hj. }
    destruct (looseEq c 1) eqn:Ec.
    + apply looseEq_true in Ec. subst c.
      assert (inside (x f + Z.of_nat j0) (y f + Z.of_nat i)) as Hhere.
      { replace j0 with (j0 + 0)%nat at 1 by lia. apply Hin. reflexivity. }
      assert (fillCode (Num (colorIndex f))) as Hfill by (simpl; lia).
      destruct (assignGrid_inside s _ _ (Num (colorIndex f)) Hwf Hhere Hfill)
        as (g1 & Hassign & Hwf1 & Hset & Hother).
      rewrite (bind_ok _ _ _ _ _ Hassign).
      destruct (IH (S j0) (setGrid g1 s) Hwf1 Hcode Hin')
        as (g' & Hrun & Hwf' & Hkeep & Hwritten & Hrest).
      exists g'. split; [rewrite Hrun; reflexivity|].
      simpl grid in *.
      split; [assumption|]. split; [|split].
      * intros p q Hpq Hv. apply Hkeep; [assumption|].
        destruct (decide ((p, q) = (x f + Z.of_nat j0, y f + Z.of_nat i)))
          as [[= -> ->]|Hne]; [assumption|].
        rewrite Hother; assumption.
      * intros p q ([|j] & Hj & -> & ->).
        -- rewrite Nat.add_0_r. apply Hkeep; assumption.
        -- apply Hwritten. exists j. split; [exact Hj|]. split; f_equal; lia.
      * intros p q Hpq Hnot. rewrite Hrest; [|assumption|].
        -- apply Hother; [assumption|]. intros [= -> ->]. apply Hnot.
           exists 0%nat. split; [reflexivity|]. split; f_equal; lia.
        -- intros (j & Hj & -> & ->). apply Hnot. exists (S j).
           split; [exact Hj|]. split; f_equal; lia.
    + apply looseEq_false in Ec.
      rewrite (bind_ok (ret tt) _ s tt s eq_refl).
      destruct (IH (S j0) s Hwf Hcode Hin')
        as (g' & Hrun & Hwf' & Hkeep & Hwritten & Hrest).
      exists g'. split; [assumption|].
      split; [assumption|]. split; [assumption|]. split.
      * intros p q ([|j] & Hj & -> & ->).
        -- simpl in Hj. congruence.
        -- apply Hwritten. exists j. split; [exact Hj|]. split; f_equal; lia.
      * intros p q Hpq Hnot. apply Hrest; [assumption|].
        intros (j & Hj & -> & ->). apply Hnot. exists (S j).
        split; [exact Hj|]. split; f_equal; lia.
Qed.

Lemma lock_rows_spec f m :
  forall i0 s,
    board_wf (grid s) ->
    1 <= colorIndex f <= 7 ->
    (forall i j, filledAt m i j ->
                 inside (x f + Z.of_nat j) (y f + Z.of_nat (i0 + i))) ->
    exists g',
      lock_rows f m i0 s = (Some tt, setGrid g' s) /\
      locked_from (grid s) g' (Num (colorIndex f))
        (fun p q => exists i j, filledAt m i j /\
                                p = x f + Z.of_nat j /\
                                q = y f + Z.of_nat (i0 + i)).
Proof.
  induction m as [|row m IH]; intros i0 s Hwf Hcode Hin.
  - exists (grid s). split; [destruct s; reflexivity|].
    split; [assumption|]. split; [auto|]. split; [|auto].
    intros p q (i & j & (r & Hr & _) & _). discriminate.
  - simpl lock_rows.
    assert (forall j, row !! j = Some (Num 1) ->
              inside (x f + Z.of_nat (0 + j)) (y f + Z.of_nat i0)) as Hrow.
    { intros j Hj. replace i0 with (i0 + 0)%nat at 1 by lia.
      apply Hin. exists row. split; [reflexivity|exact Hj]. }
    assert (forall i j, filledAt m i j ->
              inside (x f + Z.of_nat j) (y f + Z.of_nat (S i0 + i))) as Hin'.
    { intros i j (r & Hr & Hj).
      replace (S i0 + i)%nat with (i0 + S i)%nat by lia.
      apply Hin. exists r. split; assumption. }
    destruct (lock_cols_spec f i0 row 0 s Hwf Hcode Hrow)
      as (g1 & Hcols & Hwf1 & Hkeep1 & Hwritten1 & Hrest1).
    rewrite (bind_ok _ _ _ _ _ Hcols).
    destruct (IH (S i0) (setGrid g1 s) Hwf1 Hcode Hin')
      as (g' & Hrun & Hwf' & Hkeep & Hwritten & Hrest).
    exists g'. split; [rewrite Hrun; reflexivity|].
    simpl grid in *.
    split; [assumption|]. split; [|split].
    + intros p q Hpq Hv. apply Hkeep; [assumption|].
      apply Hkeep1; assumption.
    + intros p q ([|i] & j & (r & Hr & Hj) & -> & ->).
      * simpl in Hr. injection Hr as <-.
        assert (inside (x f + Z.of_nat j) (y f + Z.of_nat (i0 + 0))) as Hpq.
        { apply Hin. exists row. split; [reflexivity|exact Hj]. }
        apply Hkeep; [assumption|]. apply Hwritten1.
        exists j. split; [exact Hj|]. split; f_equal; lia.
      * apply Hwritten. exists i, j.
        split; [exists r; split; assumption|]. split; f_equal; lia.
    + intros p q Hpq Hnot. rewrite Hrest; [|assumption|].
      * apply Hrest1; [assumption|]. intros (j & Hj & -> & ->). apply Hnot.
        exists 0%nat, j. split; [exists row; split; [reflexivity|exact Hj]|].
        split; f_equal; lia.
      * intros (i & j & (r & Hr & Hj) & -> & ->). apply Hnot.
        exists (S i), j. split; [exists r; split; assumption|].
        split; f_equal; lia.
Qed.

Lemma lock_piece s f :
  board_wf (grid s) -> piece_ok f ->
  exists g',
    lock_rows f (piece f) 0 s = (Some tt, setGrid g' s) /\
    locked_from (grid s) g' (Num (colorIndex f)) (covers f).
Proof.
  intros Hwf [Hcode Hin].
  destruct (lock_rows_spec f (piece f) 0 s Hwf Hcode Hin)
    as (g' & Hrun & Hwf' & Hkeep & Hwritten & Hrest).
  exists g'. split; [assumption|].
  split; [assumption|]. split; [assumption|]. split.
  - intros p q (i & j & Hf & -> & ->). apply Hwritten.
    exists i, j. split; [assumption|]. split; reflexivity.
  - intros p q Hpq Hnot. apply Hrest; [assumption|].
    intros (i & j & Hf & -> & ->). apply Hnot.
    exists i, j. split; [assumption|]. split; reflexivity.
Qed.

(** The state [moveDown] leaves when it locks piece [f] with the board
    becoming [g']. *)
Lemma moveDown_run s f :
  fallingPieceObj s = Some f ->
  moveDown s =
  match collisionAt (grid s) (piece f) (x f) (y f + 1) with
  | None => (None, s)
  | Some false => (Some tt, setFallingPieceObj (Some (withY f (y f + 1))) s)
  | Some true =>
      (lock_rows f (piece f) 0 ;;;
       (if y f =? 0 then
          clearInterval (gameInterval s) ;;;
          modify (setIsGameRunning false) ;;;
          setTimeout
        else ret tt) ;;;
       modify (setFallingPieceObj None)) s
  end.
Proof.
  intros Hf. unfold moveDown at 1.
  rewrite (bind_ok get _ s s s eq_refl). rewrite Hf.
  unfold collision, bind at 1. rewrite Hf.
  destruct (collisionAt _ _ _ _) as [[|]|]; reflexivity.
Qed.

(** * The invariant of the game *)

Lemma state_inv_setPiece s f :
  board_wf (grid s) -> piece_ok f ->
  state_inv (setFallingPieceObj (Some f) s).
Proof.
  intros Hwf Hok. split; [exact Hwf|].
  simpl. intros f' [= <-]. exact Hok.
Qed.

Lemma state_inv_noPiece s :
  board_wf (grid s) -> fallingPieceObj s = None -> state_inv s.
Proof. intros Hwf Hnone. split; [exact Hwf|]. rewrite Hnone. discriminate. Qed.

Lemma piece_ok_moved g f m cx cy :
  piece_ok f ->
  collisionAt g m cx cy = Some false ->
  piece_ok (mkPiece m (colorIndex f) cx cy).
Proof.
  intros [Hcode _] Hfree. split; [exact Hcode|].
  simpl. apply (collisionAt_false_inside g). exact Hfree.
Qed.

Lemma moveLeft_inv s : state_inv s -> state_inv (snd (moveLeft s)).
Proof.
  intros Hinv. destruct (fallingPieceObj s) as [f|] eqn:Hf.
  - rewrite (moveLeft_run s f Hf).
    destruct (collisionAt _ _ _ _) as [[|]|] eqn:E; try exact Hinv.
    apply state_inv_setPiece; [apply Hinv|].
    apply (piece_ok_moved (grid s) f (piece f) (x f - 1) (y f));
      [apply Hinv|]; assumption.
  - unfold moveLeft, bind, get. rewrite Hf. exact Hinv.
Qed.

Lemma moveRight_inv s : state_inv s -> state_inv (snd (moveRight s)).
Proof.
  intros Hinv. destruct (fallingPieceObj s) as [f|] eqn:Hf.
  - rewrite (moveRight_run s f Hf).
    destruct (collisionAt _ _ _ _) as [[|]|] eqn:E; try exact Hinv.
    apply state_inv_setPiece; [apply Hinv|].
    apply (piece_ok_moved (grid s) f (piece f) (x f + 1) (y f));
      [apply Hinv|]; assumption.
  - unfold moveRight, bind, get. rewrite Hf. exact Hinv.
Qed.

Lemma rotate_inv s : state_inv s -> state_inv (snd (rotate s)).
Proof.
  intros Hinv. destruct (fallingPieceObj s) as [f|] eqn:Hf.
  - rewrite (rotate_run s f Hf).
    destruct (rotateMatrix (piece f)) as [rp|]; [|exact Hinv].
    destruct (collisionAt _ _ _ _) as [[|]|] eqn:E; try exact Hinv.
    apply state_inv_setPiece; [apply Hinv|].
    apply (piece_ok_moved (grid s) f rp (x f) (y f));
      [apply Hinv|]; assumption.
  - unfold rotate, bind, get. rewrite Hf. exact Hinv.
Qed.

(** What [moveDown] does once it has found a collision below piece [f]. *)
Lemma moveDown_lock_run s f :
  board_wf (grid s) -> piece_ok f ->
  fallingPieceObj s = Some f ->
  collisionAt (grid s) (piece f) (x f) (y f + 1) = Some true ->
  exists g',
    locked_from (grid s) g' (Num (colorIndex f)) (covers f) /\
    moveDown s =
    (Some tt,
     if y f =? 0 then
       mkState g' None (score s) (gameInterval s) false
               (match gameInterval s with
                | Some id => filter (fun t => t <> id) (timers s)
                | None => timers s
                end)
               (nextTimer s) (S (pendingGameOver s))
     else
       mkState g' None (score s) (gameInterval s) (isGameRunning s)
               (timers s) (nextTimer s) (pendingGameOver s)).
Proof.
  intros Hwf Hok Hf Hhit.
  destruct (lock_piece s f Hwf Hok) as (g' & Hlock & Hfrom).
  exists g'. split; [exact Hfrom|].
  rewrite (moveDown_run s f Hf), Hhit.
  rewrite (bind_ok _ _ _ _ _ Hlock).
  destruct (y f =? 0); reflexivity.
Qed.

Lemma moveDown_inv s : state_inv s -> state_inv (snd (moveDown s)).
Proof.
  intros Hinv. destruct (fallingPieceObj s) as [f|] eqn:Hf.
  - pose proof (proj2 Hinv f Hf) as Hok.
    destruct (collisionAt (grid s) (piece f) (x f) (y f + 1))
      as [[|]|] eqn:E.
    + destruct (moveDown_lock_run s f (proj1 Hinv) Hok Hf E)
        as (g' & (Hwf' & _) & Hrun).
      rewrite Hrun. simpl.
      destruct (y f =? 0); apply state_inv_noPiece; simpl;
        solve [assumption | reflexivity].
    + rewrite (moveDown_run s f Hf), E.
      apply state_inv_setPiece; [apply Hinv|].
      apply (piece_ok_moved (grid s) f (piece f) (x f) (y f + 1));
        assumption.
    + rewrite (moveDown_run s f Hf), E. exact Hinv.
  - unfold moveDown, bind, get. rewrite Hf. exact Hinv.
Qed.

Lemma emptyRow_wf : length emptyRow = Z.to_nat COLS /\ Forall fillCode emptyRow.
Proof. split; [reflexivity|]. repeat constructor; simpl; lia. Qed.

Lemma cleared_wf g :
  board_wf g ->
  board_wf (replicate (completeRows g) emptyRow ++ incompleteRows g).
Proof.
  intros [Hlen Hrows]. split.
  - rewrite length_app, length_replicate. unfold completeRows, incompleteRows.
    rewrite List.filter_length. exact Hlen.
  - apply Forall_app. split.
    + apply Forall_replicate, emptyRow_wf.
    + unfold incompleteRows. rewrite Forall_forall in *.
      intros row Hrow. apply Hrows.
      apply list_elem_of_In in Hrow. apply List.filter_In in Hrow.
      apply list_elem_of_In. tauto.
Qed.

Lemma checkGrid_run s :
  board_wf (grid s) ->
  checkGrid s =
  (Some tt,
   setScore (lineScore (completeRows (grid s)) (score s))
     (setGrid (replicate (completeRows (grid s)) emptyRow ++
               incompleteRows (grid s)) s)).
Proof.
  intros Hwf. unfold checkGrid.
  rewrite (scan_wide _ (board_wf_wide _ Hwf)). reflexivity.
Qed.

Lemma checkGrid_inv s : state_inv s -> state_inv (snd (checkGrid s)).
Proof.
  intros [Hwf Hpiece]. rewrite (checkGrid_run s Hwf).
  split; [apply cleared_wf, Hwf | exact Hpiece].
Qed.

Lemma inv_bind {A B} (m : M A) (k : A -> M B) s :
  state_inv (snd (m s)) ->
  (forall a s', m s = (Some a, s') -> state_inv (snd (k a s'))) ->
  state_inv (snd (bind m k s)).
Proof.
  intros Hm Hk. unfold bind.
  destruct (m s) as [[a|] s'] eqn:E; simpl in *; [|exact Hm].
  apply Hk. reflexivity.
Qed.

Lemma small_shape_inside m i j :
  (length m <= 4)%nat ->
  Forall (fun row => (length row <= 4)%nat) m ->
  filledAt m i j ->
  inside (4 + Z.of_nat j) (0 + Z.of_nat i).
Proof.
  intros Hrows Hcols (row & Hrow & Hj).
  rewrite Forall_lookup in Hcols. specialize (Hcols _ _ Hrow).
  apply lookup_lt_Some in Hrow, Hj.
  unfold inside, COLS, ROWS. lia.
Qed.

Lemma randomPieceObject_ok ran :
  (ran < 7)%nat ->
  exists f, randomPieceObject ran = Some f /\ piece_ok f /\
            x f = 4 /\ y f = 0 /\ colorIndex f = Z.of_nat ran + 1 /\
            SHAPES !! ran = Some (piece f).
Proof.
  intros Hran.
  do 7 (destruct ran as [|ran];
        [eexists; split; [reflexivity|];
         split; [|repeat split];
         split; [simpl; lia|];
         intros i j Hf; simpl;
         refine (small_shape_inside _ i j _ _ Hf);
         [simpl; lia | repeat constructor] |]).
  lia.
Qed.

Lemma spawn_inv ran s :
  (ran < 7)%nat -> state_inv s ->
  state_inv
    (snd ((let* s0 := get in
           match fallingPieceObj s0 with
           | Some _ => ret tt
           | None =>
               match randomPieceObject ran with
               | Some f => modify (setFallingPieceObj (Some f))
               | None => throw
               end
           end) s)).
Proof.
  intros Hran Hinv. rewrite (bind_ok get _ s s s eq_refl).
  destruct (fallingPieceObj s); [exact Hinv|].
  destruct (randomPieceObject_ok ran Hran) as (f & -> & Hok & _).
  apply state_inv_setPiece; [apply Hinv | exact Hok].
Qed.

Lemma newGameState_inv ran s :
  (ran < 7)%nat -> state_inv s -> state_inv (snd (newGameState ran s)).
Proof.
  intros Hran Hinv. unfold newGameState.
  apply inv_bind; [apply checkGrid_inv, Hinv|].
  intros [] s1 Hs1.
  assert (state_inv s1) as Hinv1.
  { replace s1 with (snd (checkGrid s)) by (rewrite Hs1; reflexivity).
    apply checkGrid_inv, Hinv. }
  apply inv_bind; [apply spawn_inv; assumption|].
  intros [] s2 Hs2.
  apply moveDown_inv.
  replace s2 with (snd ((let* s0 := get in
           match fallingPieceObj s0 with
           | Some _ => ret tt
           | None =>
               match randomPieceObject ran with
               | Some f => modify (setFallingPieceObj (Some f))
               | None => throw
               end
           end) s1)) by (rewrite Hs2; reflexivity).
  apply spawn_inv; assumption.
Qed.

Lemma restartGame_frame s :
  grid (snd (restartGame s)) = generateGrid /\
  fallingPieceObj (snd (restartGame s)) = None /\
  score (snd (restartGame s)) = 0.
Proof. repeat split. Qed.

Lemma restartGame_inv s : state_inv (snd (restartGame s)).
Proof.
  destruct (restartGame_frame s) as (Hg & Hp & _).
  apply state_inv_noPiece; [rewrite Hg; apply generateGrid_wf | exact Hp].
Qed.

Lemma keydown_inv k s : state_inv s -> state_inv (snd (keydown k s)).
Proof.
  intros Hinv. unfold keydown. rewrite (bind_ok get _ s s s eq_refl).
  destruct (isGameRunning s); simpl; [|exact Hinv].
  destruct k; [apply moveDown_inv | apply moveLeft_inv | apply moveRight_inv
              | apply rotate_inv | ]; exact Hinv.
Qed.

Lemma gameOverPrompt_inv accept s :
  state_inv s -> state_inv (snd (gameOverPrompt accept s)).
Proof.
  intros Hinv. unfold gameOverPrompt, bind, modify.
  destruct accept; [apply restartGame_inv | exact Hinv].
Qed.

Lemma reachable_inv s : reachable s -> state_inv s.
Proof.
  induction 1 as [|s ran _ IH _ Hran|s k _ IH|s _ IH|s accept _ IH _].
  - apply state_inv_noPiece; [apply generateGrid_wf | reflexivity].
  - apply newGameState_inv; assumption.
  - apply keydown_inv; assumption.
  - apply restartGame_inv.
  - apply gameOverPrompt_inv; assumption.
Qed.

(** Claim C8.  When [moveDown] finds a collision below the piece it locks
    it: every filled cell of the piece is written into the board with the
    fill-code of the piece, every other cell of the board keeps its value,
    and there is no active piece afterwards.  The game is over, with the
    interval timer cancelled, the running flag false and the prompt
    scheduled, exactly when the vertical offset of the piece is 0;
    otherwise timer, flag and prompts are as before. *)
Theorem moveDown_lock (s : State) (f : FallingPiece) :
  state_inv s ->
  fallingPieceObj s = Some f ->
  collisionAt (grid s) (piece f) (x f) (y f + 1) = Some true ->
  exists s',
    moveDown s = (Some tt, s') /\
    fallingPieceObj s' = None /\
    (forall p q, covers f p q -> boardCell (grid s') p q = Num (colorIndex f)) /\
    (forall p q, inside p q -> ~ covers f p q ->
                 boardCell (grid s') p q = boardCell (grid s) p q) /\
    score s' = score s /\
    (y f = 0 ->
     isGameRunning s' = false /\
     (forall id, gameInterval s = Some id -> id ∉ timers s') /\
     pendingGameOver s' = S (pendingGameOver s)) /\
    (y f <> 0 ->
     isGameRunning s' = isGameRunning s /\
     timers s' = timers s /\
     pendingGameOver s' = pendingGameOver s) /\
    (pendingGameOver s' = S (pendingGameOver s) <-> y f = 0).
Proof.
  intros [Hwf Hpiece] Hf Hhit.
  destruct (moveDown_lock_run s f Hwf (Hpiece f Hf) Hf Hhit)
    as (g' & (_ & _ & Hwritten & Hrest) & Hrun).
  eexists. split; [exact Hrun|].
  destruct (y f =? 0) eqn:Ey; simpl.
  - apply Z.eqb_eq in Ey.
    repeat split; try assumption; try tauto; try lia.
    intros id ->. rewrite list_elem_of_filter. tauto.
  - apply Z.eqb_neq in Ey.
    repeat split; try assumption; try tauto; try lia.
Qed.

Lemma moveDown_lock_witness :
  state_inv (O_at 4 18) /\
  fallingPieceObj (O_at 4 18) = Some (mkPiece O_shape 7 4 18) /\
  exists s',
    moveDown (O_at 4 18) = (Some tt, s') /\
    fallingPieceObj s' = None /\
    boardCell (grid s') 4 18 = Num 7 /\
    isGameRunning s' = true.
Proof.
  assert (state_inv (O_at 4 18)) as Hinv.
  { apply state_inv_setPiece; [apply generateGrid_wf|].
    apply (piece_ok_moved generateGrid (mkPiece O_shape 7 4 18) O_shape 4 18).
    - split; [simpl; lia|].
      apply (collisionAt_false_inside generateGrid). reflexivity.
    - reflexivity. }
  split; [exact Hinv|]. split; [reflexivity|].
  destruct (moveDown_lock (O_at 4 18) (mkPiece O_shape 7 4 18) Hinv
              eq_refl eq_refl)
    as (s' & Hrun & Hnone & Hwritten & _ & _ & _ & Hcont & _).
  exists s'. split; [exact Hrun|]. split; [exact Hnone|]. split.
  - apply Hwritten. exists 0%nat, 0%nat. split; [|split; reflexivity].
    exists [Num 1; Num 1]. split; reflexivity.
  - apply Hcont. simpl. lia.
Defined.

(** Claim C9.  A fresh board is 20 rows of 10 cells holding 0.  From a
    state whose board is well formed and whose piece, if any, has a
    fill-code of 1 to 7 and its filled cells on the board, [restartGame],
    [checkGrid] and [moveDown] leave a board of 20 rows of 10 cells with
    values 0 to 7; and every state the game can reach is such a state. *)
Theorem board_invariant :
  board_wf generateGrid /\
  (forall s, state_inv s ->
             board_wf (grid (snd (restartGame s))) /\
             board_wf (grid (snd (checkGrid s))) /\
             board_wf (grid (snd (moveDown s)))) /\
  (forall s, reachable s -> state_inv s).
Proof.
  split; [apply generateGrid_wf|]. split.
  - intros s Hinv. split; [|split].
    + apply restartGame_inv.
    + apply checkGrid_inv, Hinv.
    + apply moveDown_inv, Hinv.
  - apply reachable_inv.
Qed.

Lemma board_invariant_witness :
  board_wf (grid (snd (restartGame (O_at 4 18)))) /\
  board_wf (grid (snd (checkGrid (O_at 4 18)))) /\
  board_wf (grid (snd (moveDown (O_at 4 18)))).
Proof.
  apply (proj1 (proj2 board_invariant) (O_at 4 18)).
  apply state_inv_setPiece; [apply generateGrid_wf|].
  apply (piece_ok_moved generateGrid (mkPiece O_shape 7 4 18) O_shape 4 18).
  - split; [simpl; lia|].
    apply (collisionAt_false_inside generateGrid). reflexivity.
  - reflexivity.
Defined.

(** * The O-shape falling over an empty board *)

(** Claim C2, as stated, fails: the O-shape is two rows high, so it cannot
    reach vertical offset 19; the 19th call already locks it. *)
Lemma O_shape_never_at_row_19 :
  ~ ((forall k, (k <= 19)%nat ->
        exists s' f, times k moveDown (O_at 4 0) = (Some tt, s') /\
                     fallingPieceObj s' = Some f /\ y f = Z.of_nat k) /\
     (exists s', times 20 moveDown (O_at 4 0) = (Some tt, s') /\
                 fallingPieceObj s' = None)).
Proof.
  intros [Hmoves _].
  destruct (Hmoves 19%nat (Nat.le_refl _)) as (s' & f & Hrun & Hf & _).
  vm_compute in Hrun. injection Hrun as <-. discriminate Hf.
Qed.

(** Claim C2, as the program behaves.  From the O-shape at offsets (4, 0)
    over an empty board, each of the first 18 calls of [moveDown] moves it
    down one row and changes nothing else, bringing it to vertical offset
    18; the 19th call locks it into rows 18 and 19, leaving no active
    piece and the game running. *)
Theorem O_shape_descent (k : nat) :
  (k <= 18)%nat ->
  times k moveDown (O_at 4 0) = (Some tt, O_at 4 (Z.of_nat k)) /\
  moveDown (O_at 4 18) =
    (Some tt, mkState lockedO None 0 (Some 1%nat) true [1%nat] 2 0) /\
  times 19 moveDown (O_at 4 0) =
    (Some tt, mkState lockedO None 0 (Some 1%nat) true [1%nat] 2 0).
Proof.
  intros Hk. split; [|split; vm_compute; reflexivity].
  do 19 (destruct k as [|k]; [vm_compute; reflexivity|]).
  lia.
Qed.

Lemma O_shape_descent_witness :
  (18 <= 18)%nat /\
  times 18 moveDown (O_at 4 0) = (Some tt, O_at 4 18) /\
  times 19 moveDown (O_at 4 0) =
    (Some tt, mkState lockedO None 0 (Some 1%nat) true [1%nat] 2 0).
Proof.
  split; [lia|].
  destruct (O_shape_descent 18 (Nat.le_refl _)) as (H18 & _ & H19).
  split; [exact H18 | exact H19].
Defined.

(** * Key presses without an active piece *)

Lemma absent_piece s :
  fallingPieceObj s = None ->
  moveDown s = (None, s) /\
  moveLeft s = (Some tt, s) /\
  moveRight s = (Some tt, s) /\
  rotate s = (Some tt, s).
Proof.
  intros Hnone. unfold moveDown, moveLeft, moveRight, rotate, bind, get.
  rewrite Hnone. repeat split.
Qed.

Lemma keydown_absent s :
  isGameRunning s = true ->
  fallingPieceObj s = None ->
  keydown ArrowDown s = (None, s) /\
  keydown ArrowLeft s = (Some tt, s) /\
  keydown ArrowRight s = (Some tt, s) /\
  keydown ArrowUp s = (Some tt, s).
Proof.
  intros Hrun Hnone.
  destruct (absent_piece s Hnone) as (Hdown & Hleft & Hright & Hup).
  unfold keydown.
  rewrite !(bind_ok get _ s s s eq_refl), Hrun. simpl.
  repeat split; assumption.
Qed.

Lemma afterTicks_reachable k :
  (forall j, (j < k)%nat -> timers (afterTicks j) <> []) ->
  reachable (afterTicks k).
Proof.
  induction k as [|k IH]; intros Htimers.
  - apply reach_loaded.
  - change (afterTicks (S k)) with (snd (newGameState 6 (afterTicks k))).
    apply reach_tick.
    + apply IH. intros j Hj. apply Htimers. lia.
    + apply Htimers. lia.
    + lia.
Qed.

(** Claim C10.  After 19 ticks that draw the O-shape the game is running
    with no active piece, the piece having locked without ending the
    game.  In that reachable state the handler of the down key throws,
    [moveDown] reading a field of the absent piece, while the handlers of
    the left, right and up keys return with the state unchanged. *)
Theorem moveDown_unguarded :
  exists s,
    reachable s /\
    isGameRunning s = true /\
    fallingPieceObj s = None /\
    pendingGameOver s = 0%nat /\
    keydown ArrowDown s = (None, s) /\
    keydown ArrowLeft s = (Some tt, s) /\
    keydown ArrowRight s = (Some tt, s) /\
    keydown ArrowUp s = (Some tt, s).
Proof.
  exists (afterTicks 19).
  split.
  { apply afterTicks_reachable. intros j Hj.
    do 19 (destruct j as [|j]; [vm_compute; discriminate|]). lia. }
  assert (isGameRunning (afterTicks 19) = true) as Hrun
    by (vm_compute; reflexivity).
  assert (fallingPieceObj (afterTicks 19) = None) as Hnone
    by (vm_compute; reflexivity).
  split; [exact Hrun|]. split; [exact Hnone|].
  split; [vm_compute; reflexivity|].
  apply keydown_absent; assumption.
Qed.

(** * Further properties of the engine *)

(** ** checkGrid *)

Lemma filter_none_all {A} (f : A -> bool) (l : list A) :
  length (List.filter f l) = 0%nat ->
  List.filter (fun a => negb (f a)) l = l.
Proof.
  induction l as [|a l IH]; simpl; [reflexivity|].
  destruct (f a); simpl; [discriminate|].
  intros H. rewrite IH by assumption. reflexivity.
Qed.

Lemma complete_emptyRow : complete emptyRow = false.
Proof. reflexivity. Qed.

Lemma completeRows_app g1 g2 :
  completeRows (g1 ++ g2) = (completeRows g1 + completeRows g2)%nat.
Proof.
  unfold completeRows. rewrite List.filter_app, length_app. reflexivity.
Qed.

Lemma completeRows_replicate_empty n :
  completeRows (replicate n emptyRow) = 0%nat.
Proof. induction n as [|n IH]; [reflexivity|exact IH]. Qed.

Lemma completeRows_incomplete g : completeRows (incompleteRows g) = 0%nat.
Proof.
  unfold completeRows, incompleteRows.
  induction g as [|row g IH]; simpl; [reflexivity|].
  destruct (complete row) eqn:E; simpl; [exact IH|].
  rewrite E. exact IH.
Qed.

Lemma completeRows_cleared g :
  completeRows (replicate (completeRows g) emptyRow ++ incompleteRows g) =
  0%nat.
Proof.
  rewrite completeRows_app, completeRows_replicate_empty,
    completeRows_incomplete. reflexivity.
Qed.

Lemma checkGrid_nothing s :
  board_wf (grid s) -> completeRows (grid s) = 0%nat ->
  checkGrid s = (Some tt, s).
Proof.
  intros Hwf Hzero. rewrite (checkGrid_run s Hwf), Hzero.
  unfold incompleteRows. rewrite filter_none_all by exact Hzero.
  destruct s. reflexivity.
Qed.

(** X1.  On a well-formed board without a complete row a pass of
    [checkGrid] changes nothing, neither board nor score; and a second
    pass right after a first one changes nothing, whatever the board was:
    one pass leaves no complete row behind. *)
Theorem checkGrid_idempotent (s : State) :
  board_wf (grid s) ->
  (completeRows (grid s) = 0%nat -> checkGrid s = (Some tt, s)) /\
  completeRows (grid (snd (checkGrid s))) = 0%nat /\
  (checkGrid ;;; checkGrid) s = checkGrid s.
Proof.
  intros Hwf. split; [apply checkGrid_nothing, Hwf|].
  pose proof (checkGrid_run s Hwf) as Hrun.
  split.
  - rewrite Hrun. simpl. apply completeRows_cleared.
  - rewrite (bind_ok _ _ _ _ _ Hrun). cbv beta. rewrite Hrun.
    apply checkGrid_nothing; simpl.
    + apply cleared_wf, Hwf.
    + apply completeRows_cleared.
Qed.

Lemma checkGrid_idempotent_witness :
  board_wf twoFullRows /\
  completeRows (grid (snd (checkGrid (mkState twoFullRows None 0 None false
                                         [] 1 0)))) = 0%nat /\
  (checkGrid ;;; checkGrid) (mkState twoFullRows None 0 None false [] 1 0) =
  checkGrid (mkState twoFullRows None 0 None false [] 1 0).
Proof.
  assert (board_wf twoFullRows) as Hwf.
  { apply (bool_decide_unpack _). vm_compute. reflexivity. }
  split; [exact Hwf|].
  exact (proj2 (checkGrid_idempotent
                  (mkState twoFullRows None 0 None false [] 1 0) Hwf)).
Defined.

(** ** Moves that are accepted *)

Lemma collisionAt_false_free g m cx cy :
  board_wf g ->
  collisionAt g m cx cy = Some false ->
  forall i j, filledAt m i j ->
              inside (cx + Z.of_nat j) (cy + Z.of_nat i) /\
              boardCell g (cx + Z.of_nat j) (cy + Z.of_nat i) = Num 0.
Proof.
  intros Hwf Hfree i j Hf.
  pose proof (collisionAt_false g m cx cy Hfree i j Hf) as Htest.
  pose proof (cellTest_false_inside _ _ _ Htest) as Hin.
  split; [exact Hin|].
  destruct (board_wf_lookup g _ _ Hwf Hin) as (row & n & Hrow & Hc & Hn).
  unfold cellTest in Htest.
  destruct (_ && _); [|discriminate].
  rewrite Hrow in Htest. unfold readCell in Htest. rewrite Hc in Htest.
  simpl in Htest. injection Htest as Hlt. apply Z.ltb_ge in Hlt.
  unfold boardCell, cellAt, readCell. rewrite Hrow. simpl. rewrite Hc. simpl.
  f_equal. lia.
Qed.

Lemma covers_moved m code cx cy p q :
  covers (mkPiece m code cx cy) p q ->
  exists i j, filledAt m i j /\ p = cx + Z.of_nat j /\ q = cy + Z.of_nat i.
Proof. intros (i & j & Hf & Hp & Hq). exists i, j. auto. Qed.

(** X2.  Whenever one of [moveDown], [moveLeft], [moveRight] and [rotate]
    leaves a falling piece other than the one it found, the board is the
    one it found and every filled cell of the new piece lies inside the
    board on a cell holding 0: an accepted move never overlaps a locked
    cell and never leaves the board. *)
Theorem accepted_move_on_free_cells (s : State) (f f' : FallingPiece)
    (op : M unit) :
  state_inv s ->
  fallingPieceObj s = Some f ->
  In op pieceMoves ->
  fallingPieceObj (snd (op s)) = Some f' ->
  f' <> f ->
  grid (snd (op s)) = grid s /\
  forall p q, covers f' p q -> inside p q /\ boardCell (grid s) p q = Num 0.
Proof.
  intros [Hwf Hpiece] Hf Hop Hafter Hne.
  assert (forall m cx cy,
            collisionAt (grid s) m cx cy = Some false ->
            f' = mkPiece m (colorIndex f) cx cy ->
            forall p q, covers f' p q ->
                        inside p q /\ boardCell (grid s) p q = Num 0) as Hfree.
  { intros m cx cy Hfree -> p q Hcov.
    destruct (covers_moved _ _ _ _ _ _ Hcov) as (i & j & Hfill & -> & ->).
    apply (collisionAt_false_free _ m); assumption. }
  simpl in Hop. destruct Hop as [<- | [<- | [<- | [<- | []]]]].
  - destruct (collisionAt (grid s) (piece f) (x f) (y f + 1))
      as [[|]|] eqn:E.
    + destruct (moveDown_lock_run s f Hwf (Hpiece f Hf) Hf E)
        as (g' & _ & Hrun).
      rewrite Hrun in Hafter. simpl in Hafter.
      destruct (y f =? 0); discriminate Hafter.
    + rewrite (moveDown_run s f Hf), E in Hafter |- *. simpl in Hafter.
      injection Hafter as <-. split; [reflexivity|].
      apply (Hfree (piece f) (x f) (y f + 1) E). reflexivity.
    + rewrite (moveDown_run s f Hf), E in Hafter. simpl in Hafter. congruence.
  - rewrite (moveLeft_run s f Hf) in Hafter |- *.
    destruct (collisionAt (grid s) (piece f) (x f - 1) (y f))
      as [[|]|] eqn:E; simpl in Hafter; try congruence.
    injection Hafter as <-. split; [reflexivity|].
    apply (Hfree (piece f) (x f - 1) (y f) E). reflexivity.
  - rewrite (moveRight_run s f Hf) in Hafter |- *.
    destruct (collisionAt (grid s) (piece f) (x f + 1) (y f))
      as [[|]|] eqn:E; simpl in Hafter; try congruence.
    injection Hafter as <-. split; [reflexivity|].
    apply (Hfree (piece f) (x f + 1) (y f) E). reflexivity.
  - rewrite (rotate_run s f Hf) in Hafter |- *.
    destruct (rotateMatrix (piece f)) as [rp|]; simpl in Hafter;
      [|congruence].
    destruct (collisionAt (grid s) rp (x f) (y f))
      as [[|]|] eqn:E; simpl in Hafter; try congruence.
    injection Hafter as <-. split; [reflexivity|].
    apply (Hfree rp (x f) (y f) E). reflexivity.
Qed.

Lemma O_at_inv cx cy :
  collisionAt generateGrid O_shape cx cy = Some false ->
  state_inv (O_at cx cy).
Proof.
  intros Hfree. apply state_inv_setPiece; [apply generateGrid_wf|].
  split; [simpl; lia|].
  apply (collisionAt_false_inside generateGrid). exact Hfree.
Qed.

Lemma accepted_move_on_free_cells_witness :
  state_inv (O_at 4 5) /\
  fallingPieceObj (snd (moveLeft (O_at 4 5))) = Some (mkPiece O_shape 7 3 5) /\
  boardCell (grid (O_at 4 5)) 3 5 = Num 0.
Proof.
  pose proof (O_at_inv 4 5 eq_refl) as Hinv.
  split; [exact Hinv|]. split; [reflexivity|].
  refine (proj2 (proj2 (accepted_move_on_free_cells (O_at 4 5)
            (mkPiece O_shape 7 4 5) (mkPiece O_shape 7 3 5) moveLeft
            Hinv eq_refl _ eq_refl _) 3 5 _)).
  - simpl. tauto.
  - discriminate.
  - exists 0%nat, 0%nat. split; [|split; reflexivity].
    exists [Num 1; Num 1]. split; reflexivity.
Defined.

(** X3.  From a position that does not collide, a [moveLeft] that is
    accepted followed by [moveRight] gives the state back, and so does an
    accepted [moveRight] followed by [moveLeft]. *)
Theorem sideways_round_trip (s : State) (f : FallingPiece) :
  fallingPieceObj s = Some f ->
  collisionAt (grid s) (piece f) (x f) (y f) = Some false ->
  (collisionAt (grid s) (piece f) (x f - 1) (y f) = Some false ->
   (moveLeft ;;; moveRight) s = (Some tt, s)) /\
  (collisionAt (grid s) (piece f) (x f + 1) (y f) = Some false ->
   (moveRight ;;; moveLeft) s = (Some tt, s)).
Proof.
  intros Hf Hhere. split; intros Hthere.
  - pose proof (moveLeft_run s f Hf) as Hleft. rewrite Hthere in Hleft.
    rewrite (bind_ok _ _ _ _ _ Hleft). cbv beta.
    rewrite (moveRight_run (setFallingPieceObj (Some (withX f (x f - 1))) s)
               (withX f (x f - 1)) eq_refl). simpl.
    replace (x f - 1 + 1) with (x f) by lia. rewrite Hhere.
    f_equal. destruct s, f. simpl in *. subst. reflexivity.
  - pose proof (moveRight_run s f Hf) as Hright. rewrite Hthere in Hright.
    rewrite (bind_ok _ _ _ _ _ Hright). cbv beta.
    rewrite (moveLeft_run (setFallingPieceObj (Some (withX f (x f + 1))) s)
               (withX f (x f + 1)) eq_refl). simpl.
    replace (x f + 1 - 1) with (x f) by lia. rewrite Hhere.
    f_equal. destruct s, f. simpl in *. subst. reflexivity.
Qed.

Lemma sideways_round_trip_witness :
  fallingPieceObj (O_at 4 5) = Some (mkPiece O_shape 7 4 5) /\
  (moveLeft ;;; moveRight) (O_at 4 5) = (Some tt, O_at 4 5) /\
  (moveRight ;;; moveLeft) (O_at 4 5) = (Some tt, O_at 4 5).
Proof.
  split; [reflexivity|].
  destruct (sideways_round_trip (O_at 4 5) (mkPiece O_shape 7 4 5)
              eq_refl eq_refl) as [Hl Hr].
  split; [apply Hl | apply Hr]; reflexivity.
Defined.

(** ** Rotation *)

(** X4.  On a square matrix of side [n] the matrix [rotate] builds is
    again square of side [n], and its cell [(i, j)] is the cell
    [(n - 1 - j, i)] of the old one: a quarter turn clockwise. *)
Theorem rotateMatrix_clockwise (n : nat) (m : matrix) :
  square n m ->
  exists r,
    rotateMatrix m = Some r /\
    square n r /\
    forall i j, (i < n)%nat -> (j < n)%nat ->
                cellAt r i j = cellAt m (n - 1 - j) i.
Proof.
  intros Hsq. exists (rotationOf m).
  split; [apply (rotateMatrix_square n), Hsq|].
  split; [apply rotationOf_square, Hsq|].
  intros i j Hi Hj. rewrite (rotationOf_cellAt n m i j Hsq Hi Hj).
  f_equal. lia.
Qed.

Lemma rotateMatrix_clockwise_witness :
  square 3 J_shape /\
  exists r, rotateMatrix J_shape = Some r /\ square 3 r /\
            cellAt r 0 0 = cellAt J_shape 2 0.
Proof.
  assert (square 3 J_shape) as Hsq.
  { split; [reflexivity|]. repeat constructor. }
  split; [exact Hsq|].
  destruct (rotateMatrix_clockwise 3 J_shape Hsq) as (r & Hr & Hsqr & Hcells).
  exists r. split; [exact Hr|]. split; [exact Hsqr|].
  apply (Hcells 0%nat 0%nat); lia.
Defined.

(** X5.  The rotation throws exactly when some row of the matrix is
    longer than the matrix has rows: then [piece[j]] is read for a [j]
    that is no row.  In particular it never throws on a square matrix. *)
Theorem rotateMatrix_throws (m : matrix) :
  rotateMatrix m = None <->
  Exists (fun row => (length m < length row)%nat) m.
Proof.
  split.
  - intros Hnone.
    destruct (decide (Forall (fun row => (length row <= length m)%nat) m))
      as [Hall|Hnot].
    + unfold rotateMatrix in Hnone.
      rewrite (transposed_total m Hall) in Hnone. discriminate.
    + apply not_Forall_Exists in Hnot; [|intros row; apply _].
      eapply Exists_impl; [exact Hnot|].
      simpl. intros row Hrow. unfold compose in Hrow. lia.
  - intros Hex. apply Exists_exists in Hex as (row & Hin & Hlong).
    apply list_elem_of_lookup in Hin as [i Hi].
    assert (transposed m = None) as Ht; [|unfold rotateMatrix; rewrite Ht; reflexivity].
    apply mapM_None_2, Exists_exists.
    exists (i, row). split.
    + apply (elem_of_lookup_imap_2 pair m row i Hi).
    + simpl. apply mapM_None_2, Exists_exists.
      exists (length m). split; [apply elem_of_seq; lia|].
      unfold transposedCell. rewrite lookup_ge_None_2 by lia. reflexivity.
Qed.

(** ** Spawning *)

Lemma randomPieceObject_shape ran :
  (ran < 7)%nat ->
  exists f,
    randomPieceObject ran = Some f /\
    SHAPES !! ran = Some (piece f) /\
    colorIndex f = Z.of_nat ran + 1 /\ x f = 4 /\ y f = 0 /\
    piece_ok f /\
    (exists n, (n <= 4)%nat /\ square n (piece f)) /\
    collisionAt generateGrid (piece f) 4 0 = Some false.
Proof.
  intros Hran.
  destruct (randomPieceObject_ok ran Hran)
    as (f & Hf & Hok & Hx & Hy & Hcode & Hshape).
  exists f. split; [exact Hf|]. split; [exact Hshape|].
  split; [exact Hcode|]. split; [exact Hx|]. split; [exact Hy|].
  split; [exact Hok|]. split.
  + do 7 (destruct ran as [|ran];
          [injection Hf as <-; simpl;
           first [ exists 4%nat; split; [lia|];
                   split; [reflexivity|repeat constructor]
                 | exists 3%nat; split; [lia|];
                   split; [reflexivity|repeat constructor]
                 | exists 2%nat; split; [lia|];
                   split; [reflexivity|repeat constructor] ] |]).
    lia.
  + do 7 (destruct ran as [|ran]; [injection Hf as <-; reflexivity|]).
    lia.
Qed.

(** X6.  For every draw 0..6 the spawned piece is the template of that
    index with fill-code index + 1 at offsets (4, 0); its matrix is square
    of side at most 4 and all its filled cells lie inside the board, so on
    an empty board it does not collide.  For any other index no piece is
    made. *)
Theorem randomPieceObject_spawns (ran : nat) :
  ((ran < 7)%nat ->
   exists f,
     randomPieceObject ran = Some f /\
     SHAPES !! ran = Some (piece f) /\
     colorIndex f = Z.of_nat ran + 1 /\ x f = 4 /\ y f = 0 /\
     piece_ok f /\
     (exists n, (n <= 4)%nat /\ square n (piece f)) /\
     collisionAt generateGrid (piece f) 4 0 = Some false) /\
  ((7 <= ran)%nat -> randomPieceObject ran = None).
Proof.
  split; [apply randomPieceObject_shape|].
  intros Hran. unfold randomPieceObject.
  rewrite lookup_ge_None_2; [reflexivity|]. simpl. lia.
Qed.

Lemma randomPieceObject_spawns_witness :
  (6 < 7)%nat /\
  exists f, randomPieceObject 6 = Some f /\ piece f = O_shape /\
            colorIndex f = 7 /\ piece_ok f.
Proof.
  split; [lia|].
  destruct (proj1 (randomPieceObject_spawns 6) ltac:(lia))
    as (f & Hf & Hshape & Hcode & _ & _ & Hok & _).
  exists f. split; [exact Hf|]. split.
  - change (Some O_shape = Some (piece f)) in Hshape.
    injection Hshape as <-. reflexivity.
  - split; [exact Hcode | exact Hok].
Defined.

(** ** Starting and restarting *)

Lemma startGame_run s :
  startGame s =
  (Some tt,
   if isGameRunning s then s
   else mkState (grid s) (fallingPieceObj s) (score s) (Some (nextTimer s))
                true (nextTimer s :: timers s) (S (nextTimer s))
                (pendingGameOver s)).
Proof.
  unfold startGame. rewrite (bind_ok get _ s s s eq_refl).
  destruct (isGameRunning s); reflexivity.
Qed.

(** X7.  [startGame] on a running game changes nothing, so starting twice
    is starting once: no second timer is ever set up by it. *)
Theorem startGame_idempotent (s : State) :
  (isGameRunning s = true -> startGame s = (Some tt, s)) /\
  isGameRunning (snd (startGame s)) = true /\
  (startGame ;;; startGame) s = startGame s.
Proof.
  pose proof (startGame_run s) as Hrun.
  split; [|split].
  - intros E. rewrite Hrun, E. reflexivity.
  - rewrite Hrun. simpl. destruct (isGameRunning s) eqn:E; [exact E|reflexivity].
  - rewrite (bind_ok _ _ _ _ _ Hrun). cbv beta. rewrite Hrun.
    rewrite startGame_run.
    destruct (isGameRunning s) eqn:E; [rewrite E|]; reflexivity.
Qed.

Lemma startGame_idempotent_witness :
  isGameRunning (O_at 4 5) = true /\
  startGame (O_at 4 5) = (Some tt, O_at 4 5).
Proof.
  split; [reflexivity|].
  apply (proj1 (startGame_idempotent (O_at 4 5))). reflexivity.
Defined.

Lemma filter_own_timer (id : nat) : filter (fun t => t <> id) [id] = [].
Proof. rewrite filter_cons_False by (intros H; apply H; reflexivity). reflexivity. Qed.

Lemma clear_own_timer s :
  timers_ok s ->
  match gameInterval s with
  | Some id => filter (fun t => t <> id) (timers s)
  | None => timers s
  end = [].
Proof.
  unfold timers_ok. destruct (isGameRunning s).
  - intros (id & -> & ->). apply filter_own_timer.
  - intros ->. destruct (gameInterval s); reflexivity.
Qed.

Lemma restartGame_run s :
  timers_ok s ->
  restartGame s =
  (Some tt,
   mkState generateGrid None 0 (Some (nextTimer s)) true [nextTimer s]
           (S (nextTimer s)) (pendingGameOver s)).
Proof.
  intros Hok. pose proof (clear_own_timer s Hok) as Hclear.
  unfold restartGame, startGame, bind, get, modify, clearInterval,
    setInterval, setGameInterval. simpl.
  rewrite Hclear. reflexivity.
Qed.

(** X8.  From a state whose timers agree with the running flag,
    [restartGame] gives a fresh game: an empty board, no piece, score 0,
    the game running on exactly one new timer, the old one cancelled.  A
    game-over prompt that was scheduled stays scheduled. *)
Theorem restartGame_fresh (s : State) :
  timers_ok s ->
  restartGame s =
  (Some tt,
   mkState generateGrid None 0 (Some (nextTimer s)) true [nextTimer s]
           (S (nextTimer s)) (pendingGameOver s)).
Proof. apply restartGame_run. Qed.

Lemma restartGame_fresh_witness :
  timers_ok (O_at 4 18) /\
  restartGame (O_at 4 18) =
  (Some tt, mkState generateGrid None 0 (Some 2%nat) true [2%nat] 3 0).
Proof.
  assert (timers_ok (O_at 4 18)) as Hok.
  { exists 1%nat. split; reflexivity. }
  split; [exact Hok|]. exact (restartGame_fresh (O_at 4 18) Hok).
Defined.

(** ** What the piece operations do in a well-formed state *)

Lemma collision_wf_result s m cx cy :
  board_wf (grid s) -> exists b, collisionAt (grid s) m cx cy = Some b.
Proof.
  intros Hwf. destruct (collisionAt_wf (grid s) m cx cy Hwf) as (b & Hb & _).
  eauto.
Qed.

Lemma moveDown_effect s :
  state_inv s ->
  (fallingPieceObj s = None /\ moveDown s = (None, s)) \/
  (exists f,
      fallingPieceObj s = Some f /\
      collisionAt (grid s) (piece f) (x f) (y f + 1) = Some false /\
      moveDown s =
      (Some tt, setFallingPieceObj (Some (withY f (y f + 1))) s)) \/
  (exists f g',
      fallingPieceObj s = Some f /\
      collisionAt (grid s) (piece f) (x f) (y f + 1) = Some true /\
      locked_from (grid s) g' (Num (colorIndex f)) (covers f) /\
      moveDown s = (Some tt, lockedState s f g')).
Proof.
  intros [Hwf Hpiece]. destruct (fallingPieceObj s) as [f|] eqn:Hf.
  - right.
    destruct (collision_wf_result s (piece f) (x f) (y f + 1) Hwf)
      as ([|] & E).
    + right.
      destruct (moveDown_lock_run s f Hwf (Hpiece f eq_refl) Hf E)
        as (g' & Hfrom & Hrun).
      exists f, g'. repeat split; try assumption; apply Hfrom.
    + left. exists f. split; [reflexivity|]. split; [exact E|].
      rewrite (moveDown_run s f Hf), E. reflexivity.
  - left. split; [reflexivity|]. apply absent_piece, Hf.
Qed.

Lemma sideways_effect s op :
  state_inv s ->
  (forall f, fallingPieceObj s = Some f -> piece_shape_ok f) ->
  In op [moveLeft; moveRight; rotate] ->
  op s = (Some tt, s) \/
  exists f f',
    fallingPieceObj s = Some f /\
    op s = (Some tt, setFallingPieceObj (Some f') s) /\
    y f' = y f /\ piece_ok f' /\ piece_shape_ok f'.
Proof.
  intros [Hwf Hpiece] Hshape Hop.
  destruct (fallingPieceObj s) as [f|] eqn:Hf.
  2:{ left. destruct (absent_piece s Hf) as (_ & Hl & Hr & Hrot).
      simpl in Hop. destruct Hop as [<- | [<- | [<- | []]]]; assumption. }
  pose proof (Hpiece f eq_refl) as Hok.
  pose proof (Hshape f eq_refl) as (n & Hn & Hsq).
  simpl in Hop. destruct Hop as [<- | [<- | [<- | []]]].
  - rewrite (moveLeft_run s f Hf).
    destruct (collision_wf_result s (piece f) (x f - 1) (y f) Hwf)
      as ([|] & E); rewrite E; [left; reflexivity|].
    right. exists f, (withX f (x f - 1)).
    split; [reflexivity|]. split; [reflexivity|]. split; [reflexivity|].
    split; [|exists n; split; assumption].
    apply (piece_ok_moved (grid s) f (piece f) (x f - 1) (y f)); assumption.
  - rewrite (moveRight_run s f Hf).
    destruct (collision_wf_result s (piece f) (x f + 1) (y f) Hwf)
      as ([|] & E); rewrite E; [left; reflexivity|].
    right. exists f, (withX f (x f + 1)).
    split; [reflexivity|]. split; [reflexivity|]. split; [reflexivity|].
    split; [|exists n; split; assumption].
    apply (piece_ok_moved (grid s) f (piece f) (x f + 1) (y f)); assumption.
  - rewrite (rotate_run s f Hf), (rotateMatrix_square n _ Hsq).
    destruct (collision_wf_result s (rotationOf (piece f)) (x f) (y f) Hwf)
      as ([|] & E); rewrite E; [left; reflexivity|].
    right. exists f, (withPiece f (rotationOf (piece f))).
    split; [reflexivity|]. split; [reflexivity|]. split; [reflexivity|].
    split.
    + apply (piece_ok_moved (grid s) f (rotationOf (piece f)) (x f) (y f));
        assumption.
    + exists n. split; [assumption|]. apply rotationOf_square, Hsq.
Qed.

(** ** Complete rows after a lock *)

Lemma filter_changed_window {A} (P : A -> bool) (l : list A) :
  forall (l' : list A) (a h : nat),
    length l = length l' ->
    (forall i, (i < a \/ a + h <= i)%nat -> l' !! i = l !! i) ->
    (length (List.filter P l') <= length (List.filter P l) + h)%nat.
Proof.
  induction l as [|c l IH]; intros [|c' l'] a h Hlen Hsame;
    simpl in Hlen; try discriminate; [simpl; lia|].
  injection Hlen as Hlen.
  destruct a as [|a].
  - destruct h as [|h].
    + assert (c' = c) as ->.
      { specialize (Hsame 0%nat). simpl in Hsame.
        assert (Some c' = Some c) as Heq by (apply Hsame; lia).
        congruence. }
      assert (length (List.filter P l') <= length (List.filter P l) + 0)%nat.
      { apply (IH l' 0%nat 0%nat Hlen). intros i _.
        apply (Hsame (S i)). lia. }
      simpl. destruct (P c); simpl; lia.
    + assert (length (List.filter P l') <= length (List.filter P l) + h)%nat.
      { apply (IH l' 0%nat h Hlen). intros i Hi.
        apply (Hsame (S i)). lia. }
      simpl. destruct (P c), (P c'); simpl; lia.
  - assert (c' = c) as ->.
    { specialize (Hsame 0%nat). simpl in Hsame.
      assert (Some c' = Some c) as Heq by (apply Hsame; lia).
      congruence. }
    assert (length (List.filter P l') <= length (List.filter P l) + h)%nat.
    { apply (IH l' a h Hlen). intros i Hi. apply (Hsame (S i)). lia. }
    simpl. destruct (P c); simpl; lia.
Qed.

Lemma unwritten_row g g' v W (qn : nat) :
  board_wf g -> locked_from g g' v W ->
  (forall p, ~ W p (Z.of_nat qn)) ->
  g' !! qn = g !! qn.
Proof.
  intros Hwf (Hwf' & _ & _ & Hrest) Hnot.
  destruct (decide (qn < Z.to_nat ROWS)%nat) as [Hq|Hq].
  2:{ destruct Hwf as [Hlen _], Hwf' as [Hlen' _].
      rewrite !lookup_ge_None_2 by lia. reflexivity. }
  assert (forall h, board_wf h ->
            exists row, h !! qn = Some row /\ length row = Z.to_nat COLS)
    as Hrow.
  { intros h [Hlen Hrows].
    destruct (lookup_lt_is_Some_2 h qn) as [row Hr]; [lia|].
    exists row. split; [exact Hr|].
    rewrite Forall_lookup in Hrows. apply (Hrows _ _ Hr). }
  destruct (Hrow g Hwf) as (r & Hr & Hlr).
  destruct (Hrow g' Hwf') as (r' & Hr' & Hlr').
  rewrite Hr, Hr'. f_equal. apply list_eq. intros j.
  destruct (decide (j < Z.to_nat COLS)%nat) as [Hj|Hj].
  - assert (inside (Z.of_nat j) (Z.of_nat qn)) as Hin.
    { unfold inside, COLS, ROWS in *. lia. }
    specialize (Hrest _ _ Hin (Hnot _)).
    unfold boardCell, cellAt, readCell in Hrest.
    rewrite !Nat2Z.id, Hr, Hr' in Hrest. simpl in Hrest.
    destruct (lookup_lt_is_Some_2 r j) as [c Hc]; [lia|].
    destruct (lookup_lt_is_Some_2 r' j) as [c' Hc']; [lia|].
    rewrite Hc, Hc' in *. simpl in Hrest. congruence.
  - rewrite !lookup_ge_None_2 by lia. reflexivity.
Qed.

Lemma lock_completeRows g g' f :
  board_wf g ->
  locked_from g g' (Num (colorIndex f)) (covers f) ->
  piece_shape_ok f ->
  (completeRows g' <= completeRows g + 4)%nat.
Proof.
  intros Hwf Hfrom (n & Hn & Hlen & _).
  assert (completeRows g' <= completeRows g + n)%nat; [|lia].
  unfold completeRows.
  apply (filter_changed_window complete g g' (Z.to_nat (y f)) n).
  - destruct Hwf as [-> _], Hfrom as [[-> _] _]. reflexivity.
  - intros i Hi. apply (unwritten_row g g' _ _ i Hwf Hfrom).
    intros p (i0 & j & (row & Hrow & _) & _ & Hq).
    apply lookup_lt_Some in Hrow. lia.
Qed.

(** ** The invariant of the whole game *)

Lemma lineScore_bounds n sc :
  0 <= sc -> (10 | sc) ->
  sc <= lineScore n sc <= sc + 100 /\ (10 | lineScore n sc).
Proof.
  intros Hpos [k Hk]. unfold lineScore.
  destruct n as [|[|[|[|n]]]]; simpl; (split; [lia|]).
  - exists k; lia.
  - exists (k + 1); lia.
  - exists (k + 3); lia.
  - exists (k + 5); lia.
  - exists (k + 10); lia.
Qed.

Lemma core_inv_moved s f' :
  core_inv s -> fallingPieceObj s <> None ->
  piece_ok f' -> piece_shape_ok f' ->
  core_inv (setFallingPieceObj (Some f') s).
Proof.
  intros (Hinv & Ht & _ & Hscore & Hle & Hzero) Hsome Hok Hshape.
  split; [apply state_inv_setPiece; [apply Hinv | exact Hok]|].
  split; [exact Ht|].
  split; [simpl; intros f [= <-]; exact Hshape|].
  split; [exact Hscore|].
  split; [exact Hle|]. intros _. apply Hzero, Hsome.
Qed.

Lemma core_inv_locked s f g' :
  core_inv s -> fallingPieceObj s = Some f ->
  locked_from (grid s) g' (Num (colorIndex f)) (covers f) ->
  core_inv (lockedState s f g').
Proof.
  intros (Hinv & Ht & Hshape & Hscore & Hle & Hzero) Hf Hfrom.
  assert (completeRows g' <= 4)%nat as Hrows.
  { pose proof (lock_completeRows (grid s) g' f (proj1 Hinv) Hfrom
                  (Hshape f Hf)) as Hbound.
    rewrite Hzero in Hbound by congruence. exact Hbound. }
  pose proof (clear_own_timer s Ht) as Hclear.
  unfold lockedState. destruct (y f =? 0).
  - split; [apply state_inv_noPiece; [apply Hfrom | reflexivity]|].
    split; [unfold timers_ok; simpl; exact Hclear|].
    split; [simpl; discriminate|].
    split; [exact Hscore|].
    split; [exact Hrows|]. simpl. congruence.
  - split; [apply state_inv_noPiece; [apply Hfrom | reflexivity]|].
    split; [exact Ht|].
    split; [simpl; discriminate|].
    split; [exact Hscore|].
    split; [exact Hrows|]. simpl. congruence.
Qed.

Lemma core_inv_moveDown s : core_inv s -> core_inv (snd (moveDown s)).
Proof.
  intros Hcore. pose proof Hcore as (Hinv & _ & Hshape & _).
  destruct (moveDown_effect s Hinv)
    as [[_ ->] | [(f & Hf & E & ->) | (f & g' & Hf & _ & Hfrom & ->)]].
  - exact Hcore.
  - apply core_inv_moved; [exact Hcore | congruence | | apply (Hshape f Hf)].
    apply (piece_ok_moved (grid s) f (piece f) (x f) (y f + 1));
      [apply (proj2 Hinv f Hf) | exact E].
  - apply core_inv_locked; assumption.
Qed.

Lemma core_inv_sideways s op :
  In op [moveLeft; moveRight; rotate] ->
  core_inv s -> core_inv (snd (op s)).
Proof.
  intros Hop Hcore. pose proof Hcore as (Hinv & _ & Hshape & _).
  destruct (sideways_effect s op Hinv Hshape Hop)
    as [-> | (f & f' & Hf & -> & _ & Hok & Hsh)].
  - exact Hcore.
  - apply core_inv_moved; [exact Hcore | congruence | exact Hok | exact Hsh].
Qed.

Lemma core_inv_checkGrid s : core_inv s -> core_inv (snd (checkGrid s)).
Proof.
  intros (Hinv & Ht & Hshape & [Hpos Hdiv] & _).
  rewrite (checkGrid_run s (proj1 Hinv)). simpl.
  pose proof (lineScore_bounds (completeRows (grid s)) (score s) Hpos Hdiv)
    as [Hb Hd].
  split.
  { pose proof (checkGrid_inv s Hinv) as H.
    rewrite (checkGrid_run s (proj1 Hinv)) in H. exact H. }
  split; [exact Ht|]. split; [exact Hshape|].
  split; [split; [simpl; lia | exact Hd]|].
  simpl. rewrite completeRows_cleared. split; [lia|reflexivity].
Qed.

Lemma core_inv_fresh id next pending :
  core_inv (mkState generateGrid None 0 (Some id) true [id] next pending).
Proof.
  split; [apply state_inv_noPiece; [apply generateGrid_wf | reflexivity]|].
  split; [exists id; split; reflexivity|].
  split; [simpl; discriminate|].
  split; [simpl; split; [lia | exists 0; lia]|].
  split; [vm_compute; lia | reflexivity].
Qed.

Lemma core_inv_restartGame s :
  timers_ok s -> core_inv (snd (restartGame s)).
Proof.
  intros Ht. rewrite (restartGame_run s Ht). apply core_inv_fresh.
Qed.

Lemma beforeStep_cases ran s :
  (ran < 7)%nat ->
  (fallingPieceObj (snd (checkGrid s)) <> None /\
   beforeStep ran s = snd (checkGrid s)) \/
  (fallingPieceObj (snd (checkGrid s)) = None /\
   exists f, randomPieceObject ran = Some f /\
             piece_ok f /\ piece_shape_ok f /\ y f = 0 /\ x f = 4 /\
             SHAPES !! ran = Some (piece f) /\
             beforeStep ran s = setFallingPieceObj (Some f) (snd (checkGrid s))).
Proof.
  intros Hran. unfold beforeStep.
  destruct (fallingPieceObj (snd (checkGrid s))) as [f0|] eqn:E.
  - left. split; [discriminate|].
    destruct (randomPieceObject ran); reflexivity.
  - right. split; [reflexivity|].
    destruct (randomPieceObject_shape ran Hran)
      as (f & Hf & Hsh & _ & Hx & Hy & Hok & Hsq & _).
    exists f. rewrite Hf.
    split; [reflexivity|]. split; [exact Hok|]. split; [exact Hsq|].
    split; [exact Hy|]. split; [exact Hx|]. split; [exact Hsh|reflexivity].
Qed.

Lemma newGameState_run ran s :
  board_wf (grid s) -> (ran < 7)%nat ->
  newGameState ran s = moveDown (beforeStep ran s).
Proof.
  intros Hwf Hran. unfold newGameState.
  pose proof (checkGrid_run s Hwf) as Hcheck.
  assert (checkGrid s = (Some tt, snd (checkGrid s))) as Hc
    by (rewrite Hcheck; reflexivity).
  rewrite (bind_ok _ _ _ _ _ Hc). cbv beta.
  set (s1 := snd (checkGrid s)).
  assert ((let* s0 := get in
           match fallingPieceObj s0 with
           | Some _ => ret tt
           | None =>
               match randomPieceObject ran with
               | Some f => modify (setFallingPieceObj (Some f))
               | None => throw
               end
           end) s1 = (Some tt, beforeStep ran s)) as Hspawn.
  { rewrite (bind_ok get _ s1 s1 s1 eq_refl).
    destruct (beforeStep_cases ran s Hran)
      as [[Hsome ->] | [Hnone (f & Hf & _ & _ & _ & _ & _ & ->)]];
      fold s1 in Hsome || fold s1 in Hnone.
    - destruct (fallingPieceObj s1); [reflexivity|congruence].
    - rewrite Hnone, Hf. reflexivity. }
  rewrite (bind_ok _ _ _ _ _ Hspawn). reflexivity.
Qed.

Lemma core_inv_beforeStep ran s :
  (ran < 7)%nat -> core_inv s ->
  core_inv (beforeStep ran s) /\
  fallingPieceObj (beforeStep ran s) <> None.
Proof.
  intros Hran Hcore.
  pose proof (core_inv_checkGrid s Hcore) as Hcore1.
  destruct (beforeStep_cases ran s Hran)
    as [[Hsome ->] | [Hnone (f & _ & Hok & Hsh & _ & _ & _ & ->)]].
  - split; assumption.
  - split; [|simpl; discriminate].
    destruct Hcore1 as (Hinv & Ht & _ & Hscore & Hle & Hzero).
    assert (completeRows (grid (snd (checkGrid s))) = 0%nat) as Hrows.
    { rewrite (checkGrid_run s (proj1 (proj1 Hcore))). simpl.
      apply completeRows_cleared. }
    split; [apply state_inv_setPiece; [apply Hinv | exact Hok]|].
    split; [exact Ht|].
    split; [simpl; intros f0 [= <-]; exact Hsh|].
    split; [exact Hscore|].
    split; [exact Hle|]. intros _. exact Hrows.
Qed.

Lemma core_inv_newGameState ran s :
  (ran < 7)%nat -> core_inv s -> core_inv (snd (newGameState ran s)).
Proof.
  intros Hran Hcore.
  rewrite (newGameState_run ran s (proj1 (proj1 Hcore)) Hran).
  apply core_inv_moveDown, core_inv_beforeStep; assumption.
Qed.

Lemma moveDown_settles s :
  state_inv s ->
  (forall f, fallingPieceObj s = Some f -> 0 <= y f) ->
  forall f, fallingPieceObj (snd (moveDown s)) = Some f -> 1 <= y f.
Proof.
  intros Hinv Hy f.
  destruct (moveDown_effect s Hinv)
    as [[Hnone ->] | [(f0 & Hf0 & _ & ->) | (f0 & g' & _ & _ & _ & ->)]];
    simpl.
  - rewrite Hnone. discriminate.
  - intros [= <-]. simpl. specialize (Hy f0 Hf0). lia.
  - unfold lockedState. destruct (y f0 =? 0); discriminate.
Qed.

Lemma game_inv_keydown k s : game_inv s -> game_inv (snd (keydown k s)).
Proof.
  intros [Hcore Hy]. unfold keydown. rewrite (bind_ok get _ s s s eq_refl).
  destruct (isGameRunning s); simpl; [|split; assumption].
  pose proof Hcore as (Hinv & _ & Hshape & _).
  destruct k.
  - split; [apply core_inv_moveDown, Hcore|].
    apply moveDown_settles; [exact Hinv|].
    intros f Hf. specialize (Hy f Hf). lia.
  - split; [apply core_inv_sideways; [simpl; tauto | exact Hcore]|].
    destruct (sideways_effect s moveLeft Hinv Hshape ltac:(simpl; tauto))
      as [-> | (f & f' & Hf & -> & Hsame & _)]; [exact Hy|].
    simpl. intros f0 [= <-]. rewrite Hsame. apply Hy, Hf.
  - split; [apply core_inv_sideways; [simpl; tauto | exact Hcore]|].
    destruct (sideways_effect s moveRight Hinv Hshape ltac:(simpl; tauto))
      as [-> | (f & f' & Hf & -> & Hsame & _)]; [exact Hy|].
    simpl. intros f0 [= <-]. rewrite Hsame. apply Hy, Hf.
  - split; [apply core_inv_sideways; [simpl; tauto | exact Hcore]|].
    destruct (sideways_effect s rotate Hinv Hshape ltac:(simpl; tauto))
      as [-> | (f & f' & Hf & -> & Hsame & _)]; [exact Hy|].
    simpl. intros f0 [= <-]. rewrite Hsame. apply Hy, Hf.
  - split; assumption.
Qed.

Lemma checkGrid_piece s :
  board_wf (grid s) ->
  fallingPieceObj (snd (checkGrid s)) = fallingPieceObj s.
Proof. intros Hwf. rewrite (checkGrid_run s Hwf). reflexivity. Qed.

Lemma game_inv_newGameState ran s :
  (ran < 7)%nat -> game_inv s -> game_inv (snd (newGameState ran s)).
Proof.
  intros Hran [Hcore Hy].
  split; [apply core_inv_newGameState; assumption|].
  pose proof (proj1 (proj1 Hcore)) as Hwf.
  rewrite (newGameState_run ran s Hwf Hran).
  apply moveDown_settles.
  - apply (core_inv_beforeStep ran s Hran Hcore).
  - intros f.
    destruct (beforeStep_cases ran s Hran)
      as [[_ ->] | [_ (f0 & _ & _ & _ & Hy0 & _ & _ & ->)]].
    + rewrite (checkGrid_piece s Hwf). intros Hf. specialize (Hy f Hf). lia.
    + simpl. intros [= <-]. lia.
Qed.

Lemma game_inv_fresh id next pending :
  game_inv (mkState generateGrid None 0 (Some id) true [id] next pending).
Proof. split; [apply core_inv_fresh | simpl; discriminate]. Qed.

Lemma game_inv_restartGame s : timers_ok s -> game_inv (snd (restartGame s)).
Proof.
  intros Ht. rewrite (restartGame_run s Ht). apply game_inv_fresh.
Qed.

Lemma game_inv_gameOverPrompt accept s :
  game_inv s -> game_inv (snd (gameOverPrompt accept s)).
Proof.
  intros Hinv. unfold gameOverPrompt, bind, modify.
  assert (game_inv
            (mkState (grid s) (fallingPieceObj s) (score s) (gameInterval s)
               (isGameRunning s) (timers s) (nextTimer s)
               (Nat.pred (pendingGameOver s)))) as Hinv'.
  { destruct s. exact Hinv. }
  destruct accept; [|exact Hinv'].
  apply game_inv_restartGame. apply Hinv'.
Qed.

Lemma reachable_game_inv s : reachable s -> game_inv s.
Proof.
  induction 1 as [|s ran _ IH _ Hran|s k _ IH|s _ IH|s accept _ IH _].
  - apply (game_inv_fresh 1 2 0).
  - apply game_inv_newGameState; assumption.
  - apply game_inv_keydown; assumption.
  - apply game_inv_restartGame, IH.
  - apply game_inv_gameOverPrompt; assumption.
Qed.

(** X9.  In every state the game can reach the running flag and the
    timers agree: a running game has exactly one active interval timer,
    the one [gameInterval] names, and a game that is not running has
    none.  Ticks therefore never double up and never outlive the game. *)
Theorem reachable_timers (s : State) :
  reachable s ->
  timers_ok s /\ (length (timers s) <= 1)%nat /\
  (isGameRunning s = true <-> timers s <> []).
Proof.
  intros Hreach.
  pose proof (reachable_game_inv s Hreach) as [(_ & Ht & _) _].
  split; [exact Ht|]. unfold timers_ok in Ht.
  destruct (isGameRunning s).
  - destruct Ht as (id & _ & ->). simpl. split; [lia|]. split; congruence.
  - rewrite Ht. simpl. split; [lia|]. split; congruence.
Qed.

Lemma reachable_timers_witness :
  reachable loaded /\ timers loaded = [1%nat] /\ isGameRunning loaded = true.
Proof.
  split; [apply reach_loaded|].
  destruct (reachable_timers loaded reach_loaded) as (_ & _ & Hiff).
  split; [reflexivity|]. apply Hiff. discriminate.
Defined.





(** ** Ticks and key presses in reachable states *)

Lemma beforeStep_frame ran s :
  score (beforeStep ran s) = score (snd (checkGrid s)) /\
  grid (beforeStep ran s) = grid (snd (checkGrid s)) /\
  isGameRunning (beforeStep ran s) = isGameRunning (snd (checkGrid s)) /\
  timers (beforeStep ran s) = timers (snd (checkGrid s)) /\
  gameInterval (beforeStep ran s) = gameInterval (snd (checkGrid s)) /\
  pendingGameOver (beforeStep ran s) = pendingGameOver (snd (checkGrid s)).
Proof.
  unfold beforeStep.
  destruct (fallingPieceObj (snd (checkGrid s)));
    destruct (randomPieceObject ran); repeat split.
Qed.

Lemma checkGrid_frame s :
  board_wf (grid s) ->
  isGameRunning (snd (checkGrid s)) = isGameRunning s /\
  timers (snd (checkGrid s)) = timers s /\
  gameInterval (snd (checkGrid s)) = gameInterval s /\
  pendingGameOver (snd (checkGrid s)) = pendingGameOver s.
Proof. intros Hwf. rewrite (checkGrid_run s Hwf). repeat split. Qed.

(** X12.  In every state the game can reach a tick runs to its end
    without throwing, whatever shape it draws; it never lowers the score
    and raises it by at most 100. *)
Theorem tick_never_throws (s : State) (ran : nat) :
  reachable s -> (ran < 7)%nat ->
  fst (newGameState ran s) = Some tt /\
  score s <= score (snd (newGameState ran s)) <= score s + 100.
Proof.
  intros Hreach Hran.
  pose proof (reachable_game_inv s Hreach) as [Hcore _].
  pose proof (proj1 (proj1 Hcore)) as Hwf.
  assert (score s <= score (snd (checkGrid s)) <= score s + 100) as Hscore.
  { destruct Hcore as (_ & _ & _ & [Hpos Hdiv] & _).
    rewrite (checkGrid_run s Hwf). simpl.
    apply lineScore_bounds; assumption. }
  destruct (core_inv_beforeStep ran s Hran Hcore) as [Hcore2 Hsome].
  destruct (beforeStep_frame ran s) as (Hsc & _).
  rewrite (newGameState_run ran s Hwf Hran).
  destruct (moveDown_effect _ (proj1 Hcore2))
    as [[Hnone _] | [(f & _ & _ & ->) | (f & g' & _ & _ & _ & ->)]].
  - contradiction.
  - simpl. rewrite Hsc. split; [reflexivity | exact Hscore].
  - split; [reflexivity|]. unfold lockedState.
    destruct (y f =? 0); simpl; rewrite Hsc; exact Hscore.
Qed.

Lemma tick_never_throws_witness :
  reachable loaded /\ (6 < 7)%nat /\ fst (newGameState 6 loaded) = Some tt.
Proof.
  split; [apply reach_loaded|]. split; [lia|].
  exact (proj1 (tick_never_throws loaded 6 reach_loaded ltac:(lia))).
Defined.

(** X13.  In every state the game can reach the only key press that
    throws is the down key pressed in a running game while no piece is
    falling; every other key press returns normally. *)
Theorem keydown_throws_only_on_down (s : State) (k : key) :
  reachable s ->
  (fst (keydown k s) = None <->
   k = ArrowDown /\ isGameRunning s = true /\ fallingPieceObj s = None).
Proof.
  intros Hreach.
  pose proof (reachable_game_inv s Hreach) as [(Hinv & _ & Hshape & _) _].
  unfold keydown. rewrite (bind_ok get _ s s s eq_refl).
  destruct (isGameRunning s); simpl.
  2:{ split; [discriminate|]. intros (_ & Hrun & _). discriminate. }
  assert (forall op, In op [moveLeft; moveRight; rotate] ->
                     fst (op s) = Some tt) as Hside.
  { intros op Hop.
    destruct (sideways_effect s op Hinv Hshape Hop)
      as [-> | (f & f' & _ & -> & _)]; reflexivity. }
  destruct k.
  - destruct (moveDown_effect s Hinv)
      as [[Hnone ->] | [(f & Hf & _ & ->) | (f & g' & Hf & _ & _ & ->)]];
      simpl.
    + tauto.
    + split; [discriminate|]. intros (_ & _ & Habs). congruence.
    + split; [discriminate|]. intros (_ & _ & Habs). congruence.
  - rewrite (Hside moveLeft) by (simpl; tauto).
    split; [discriminate|]. intros (Habs & _). discriminate.
  - rewrite (Hside moveRight) by (simpl; tauto).
    split; [discriminate|]. intros (Habs & _). discriminate.
  - rewrite (Hside rotate) by (simpl; tauto).
    split; [discriminate|]. intros (Habs & _). discriminate.
  - split; [discriminate|]. intros (Habs & _). discriminate.
Qed.

Lemma keydown_throws_only_on_down_witness :
  reachable loaded /\ fst (keydown ArrowDown loaded) = None.
Proof.
  split; [apply reach_loaded|].
  apply (keydown_throws_only_on_down loaded ArrowDown reach_loaded).
  repeat split.
Defined.



(** X15.  In a reachable state with the timer active, a tick ends the
    game exactly when no piece was falling and the piece it spawns at
    offsets (4, 0) cannot move down on the board as [checkGrid] left it.
    The game then stops with no timer left, one more prompt scheduled,
    and no piece. *)
Theorem tick_game_over (s : State) (ran : nat) :
  reachable s -> timers s <> [] -> (ran < 7)%nat ->
  (isGameRunning (snd (newGameState ran s)) = false <->
   fallingPieceObj s = None /\
   exists m, SHAPES !! ran = Some m /\
             collisionAt (grid (snd (checkGrid s))) m 4 1 = Some true) /\
  (isGameRunning (snd (newGameState ran s)) = false ->
   timers (snd (newGameState ran s)) = [] /\
   pendingGameOver (snd (newGameState ran s)) = S (pendingGameOver s) /\
   fallingPieceObj (snd (newGameState ran s)) = None).
Proof.
  intros Hreach Htimers Hran.
  pose proof (reachable_game_inv s Hreach) as [Hcore Hy].
  pose proof (proj1 (proj1 Hcore)) as Hwf.
  assert (isGameRunning s = true) as Hrun.
  { pose proof (proj1 (proj2 Hcore)) as Hts. unfold timers_ok in Hts.
    destruct (isGameRunning s); [reflexivity | contradiction]. }
  destruct (core_inv_beforeStep ran s Hran Hcore) as [Hcore2 Hsome].
  destruct (beforeStep_frame ran s) as (_ & Hg & Hr & Ht & Hgi & Hp).
  destruct (checkGrid_frame s Hwf) as (Hr1 & Ht1 & Hgi1 & Hp1).
  pose proof (checkGrid_piece s Hwf) as Hpiece.
  rewrite (newGameState_run ran s Hwf Hran).
  rewrite Hr1 in Hr. rewrite Ht1 in Ht. rewrite Hgi1 in Hgi.
  rewrite Hp1 in Hp.
  assert (timers_ok (beforeStep ran s)) as Hok by apply Hcore2.
  pose proof (clear_own_timer _ Hok) as Hclear.
  destruct (moveDown_effect _ (proj1 Hcore2))
    as [[Hnone _] | [(f & Hf & E & ->) | (f & g' & Hf & E & _ & ->)]].
  - contradiction.
  - simpl. rewrite Hr, Hrun. split; [|discriminate].
    split; [discriminate|]. intros (Hnone & m & Hm & Hhit).
    destruct (beforeStep_cases ran s Hran)
      as [[Habs _] | [_ (f0 & _ & _ & _ & Hy0 & Hx0 & Hsh & Heq)]].
    + rewrite Hpiece in Habs. contradiction.
    + rewrite Heq in Hf. simpl in Hf. injection Hf as <-.
      rewrite Hg, Hx0, Hy0 in E. change (0 + 1) with 1 in E.
      rewrite Hm in Hsh. injection Hsh as ->. congruence.
  - destruct (beforeStep_cases ran s Hran)
      as [[Habs Heq] | [Hnone (f0 & _ & _ & _ & Hy0 & Hx0 & Hsh & Heq)]].
    + assert (1 <= y f) as Hyf.
      { apply Hy. rewrite <- Hpiece, <- Heq. exact Hf. }
      unfold lockedState.
      destruct (y f =? 0) eqn:Ey; [apply Z.eqb_eq in Ey; lia|].
      simpl. rewrite Hr, Hrun. split; [|discriminate].
      split; [discriminate|]. intros (Hnone & _).
      rewrite Hpiece in Habs. contradiction.
    + assert (f = f0) as ->.
      { rewrite Heq in Hf. simpl in Hf. congruence. }
      unfold lockedState. rewrite Hy0. simpl.
      rewrite Hclear, Hp. split; [|repeat split].
      split; [|reflexivity]. intros _.
      split; [rewrite <- Hpiece; exact Hnone|].
      exists (piece f0). split; [exact Hsh|].
      rewrite Hg, Hx0, Hy0 in E. exact E.
Qed.

Lemma afterTicks_100_reachable :
  forall k, (k <= 100)%nat -> reachable (afterTicks k).
Proof.
  intros k Hk. apply afterTicks_reachable. intros j Hj.
  assert (j < 100)%nat as Hj' by lia. clear Hj Hk.
  do 100 (destruct j as [|j]; [vm_compute; discriminate|]). lia.
Qed.

Lemma tick_game_over_witness :
  reachable (afterTicks 99) /\ timers (afterTicks 99) <> [] /\ (6 < 7)%nat /\
  isGameRunning (snd (newGameState 6 (afterTicks 99))) = false /\
  timers (snd (newGameState 6 (afterTicks 99))) = [].
Proof.
  assert (reachable (afterTicks 99)) as Hreach
    by (apply afterTicks_100_reachable; lia).
  assert (timers (afterTicks 99) <> []) as Htimers
    by (vm_compute; discriminate).
  split; [exact Hreach|]. split; [exact Htimers|]. split; [lia|].
  destruct (tick_game_over (afterTicks 99) 6 Hreach Htimers ltac:(lia))
    as [Hiff Hover].
  assert (isGameRunning (snd (newGameState 6 (afterTicks 99))) = false)
    as Hstop.
  { apply Hiff. split; [vm_compute; reflexivity|].
    exists O_shape. split; vm_compute; reflexivity. }
  split; [exact Hstop | apply Hover, Hstop].
Defined.

(** X16.  In a reachable state where the game is not running no timer
    is active, so no tick can fire, and every key press is ignored: the
    state changes only by a restart. *)
Theorem stopped_game_is_frozen (s : State) :
  reachable s -> isGameRunning s = false ->
  timers s = [] /\ forall k, keydown k s = (Some tt, s).
Proof.
  intros Hreach Hstop.
  pose proof (reachable_game_inv s Hreach) as [(_ & Hok & _) _].
  unfold timers_ok in Hok. rewrite Hstop in Hok.
  split; [exact Hok|].
  intros k. unfold keydown. rewrite (bind_ok get _ s s s eq_refl), Hstop.
  reflexivity.
Qed.

Lemma stopped_game_is_frozen_witness :
  reachable (afterTicks 100) /\ isGameRunning (afterTicks 100) = false /\
  timers (afterTicks 100) = [] /\
  keydown ArrowDown (afterTicks 100) = (Some tt, afterTicks 100).
Proof.
  assert (reachable (afterTicks 100)) as Hreach
    by (apply afterTicks_100_reachable; lia).
  assert (isGameRunning (afterTicks 100) = false) as Hstop
    by (vm_compute; reflexivity).
  split; [exact Hreach|]. split; [exact Hstop|].
  destruct (stopped_game_is_frozen (afterTicks 100) Hreach Hstop)
    as [Ht Hkeys].
  split; [exact Ht | apply Hkeys].
Defined.

(** ** Falling to the floor *)

Lemma lockedState_piece s f g' : fallingPieceObj (lockedState s f g') = None.
Proof. unfold lockedState. destruct (y f =? 0); reflexivity. Qed.

Lemma moveDown_locks_by_measure (n : nat) :
  forall s f i j,
    state_inv s -> fallingPieceObj s = Some f ->
    filledAt (piece f) i j ->
    Z.to_nat (ROWS - (y f + Z.of_nat i)) = n ->
    exists k s',
      (1 <= k <= n)%nat /\
      times k moveDown s = (Some tt, s') /\
      fallingPieceObj s' = None.
Proof.
  induction n as [|n IH]; intros s f i j Hinv Hf Hfill Hn.
  - destruct (proj2 Hinv f Hf) as [_ Hin].
    destruct (Hin i j Hfill) as [_ Hq]. unfold ROWS in *. lia.
  - destruct (moveDown_effect s Hinv)
      as [[Hnone _] | [(f0 & Hf0 & E & Hrun) | (f0 & g' & Hf0 & _ & _ & Hrun)]].
    + congruence.
    + assert (f0 = f) as -> by congruence.
      set (s1 := setFallingPieceObj (Some (withY f (y f + 1))) s) in *.
      assert (state_inv s1) as Hinv1.
      { replace s1 with (snd (moveDown s)) by (rewrite Hrun; reflexivity).
        apply moveDown_inv, Hinv. }
      destruct (proj2 Hinv1 (withY f (y f + 1)) eq_refl) as [_ Hin1].
      destruct (Hin1 i j Hfill) as [_ Hq1]. simpl in Hq1.
      destruct (IH s1 (withY f (y f + 1)) i j Hinv1 eq_refl Hfill)
        as (k & s' & Hk & Htimes & Hnone).
      { simpl. unfold ROWS in *. lia. }
      exists (S k), s'. split; [lia|]. split; [|exact Hnone].
      simpl. rewrite (bind_ok _ _ _ _ _ Hrun). exact Htimes.
    + exists 1%nat, (lockedState s f0 g'). split; [lia|].
      split; [|apply lockedState_piece].
      simpl. rewrite (bind_ok _ _ _ _ _ Hrun). reflexivity.
Qed.

(** X17.  A falling piece with at least one filled cell, in a state with
    a well-formed board and the piece on it, is locked after at most 20
    calls of [moveDown], none of which throws: the piece cannot fall for
    ever. *)
Theorem moveDown_locks_within_20 (s : State) (f : FallingPiece) :
  state_inv s ->
  fallingPieceObj s = Some f ->
  (exists i j, filledAt (piece f) i j) ->
  exists k s',
    (1 <= k <= 20)%nat /\
    times k moveDown s = (Some tt, s') /\
    fallingPieceObj s' = None.
Proof.
  intros Hinv Hf (i & j & Hfill).
  destruct (moveDown_locks_by_measure _ s f i j Hinv Hf Hfill eq_refl)
    as (k & s' & Hk & Htimes & Hnone).
  exists k, s'. split; [|split; assumption].
  destruct (proj2 Hinv f Hf) as [_ Hin].
  destruct (Hin i j Hfill) as [_ Hq]. unfold ROWS in *. lia.
Qed.

Lemma moveDown_locks_within_20_witness :
  state_inv (O_at 4 0) /\
  exists k s', (1 <= k <= 20)%nat /\
               times k moveDown (O_at 4 0) = (Some tt, s') /\
               fallingPieceObj s' = None.
Proof.
  pose proof (O_at_inv 4 0 eq_refl) as Hinv.
  split; [exact Hinv|].
  apply (moveDown_locks_within_20 (O_at 4 0) (mkPiece O_shape 7 4 0) Hinv
           eq_refl).
  exists 0%nat, 0%nat, [Num 1; Num 1]. split; reflexivity.
Defined.

(** ** The theme toggle *)

(** X18.  The theme a click on the toggle selects is the theme the next
    load of the page restores, with the same class, stored entry and
    background colour; two clicks give back the class and colour the page
    had; and a page loaded with no stored entry, or with any entry other
    than [light], is dark. *)
Theorem theme_round_trip (t : Theme) :
  loadTheme (storedTheme (themeToggleClick t)) = themeToggleClick t /\
  darkTheme (themeToggleClick (themeToggleClick t)) = darkTheme t /\
  background (themeToggleClick (themeToggleClick t)) =
    background (updateCanvasColors t) /\
  darkTheme (loadTheme None) = true /\
  (forall str, str <> "light"%string ->
               darkTheme (loadTheme (Some str)) = true) /\
  darkTheme (loadTheme (Some "light"%string)) = false.
Proof.
  split; [destruct t as [[|] st bg]; reflexivity|].
  split; [destruct t as [[|] st bg]; reflexivity|].
  split; [destruct t as [[|] st bg]; reflexivity|].
  split; [reflexivity|]. split; [|reflexivity].
  intros str Hne. unfold loadTheme, updateCanvasColors. simpl.
  destruct str as [|c str]; [reflexivity|]. simpl currentTheme.
  apply negb_true_iff, String.eqb_neq. exact Hne.
Qed.
